(** * Solar-Generator: layout calculator and FE-topology builder

    A shallow embedding of [GeometryEngine.generate_structure], the two
    mesh builders and [GeometryEngine.create_nodes_plotly] of
    [core/geometry.py], of the earlier generator of
    [core/geometry_backup.py] and of the wind load of [app_backup.py].

    Conventions of the embedding.
    - Python floats are idealised as exact rationals ([Q]); equality of
      coordinates is [Qeq] ([==]).  Rounding errors of binary64 are
      therefore outside the model.
    - The [math] module ([radians], [cos], [sin], [tan]) is a parameter
      ([MathModule]); every general theorem holds for any interpretation.
    - The CAD kernel (CadQuery) and the renderer (Plotly) are external: a
      [Mesh3d] primitive carries the arguments its builder was called with
      instead of a tessellation.
    - The analysis library (Pynite) is external: its [FEModel3D] is modelled
      as two dictionaries, with [add_node] and [add_member] raising
      [NameError] on a name that is already present.
    - Python exceptions are explicit: every function that can raise returns
      a [result]. *)

From Stdlib Require Import QArith ZArith List String Ascii Lia Lqa Bool.
From Stdlib Require Import DecimalString Sorted Permutation.
From stdpp Require Import gmap strings.
Import ListNotations.

Local Open Scope Z_scope.
Local Open Scope Q_scope.
Local Open Scope string_scope.

(** ** Exceptions *)

Inductive exn : Type :=
| UnboundLocalError (var : string)
| IndexError
| ZeroDivisionError
| ValueError
| NameError (msg : string).

Inductive result (A : Type) : Type :=
| Ok (a : A)
| Raise (e : exn).
Arguments Ok {A} a.
Arguments Raise {A} e.

Definition bind {A B : Type} (r : result A) (k : A -> result B) : result B :=
  match r with
  | Ok a => k a
  | Raise e => Raise e
  end.

Notation "'let!' pat ':=' r 'in' k" := (bind r (fun pat => k))
  (at level 10, pat pattern, r at level 200, k at level 200).

Definition is_ok {A : Type} (r : result A) : bool :=
  match r with Ok _ => true | Raise _ => false end.

(** The value of a result, or [d] when it is an exception. *)
Definition value_or {A : Type} (d : A) (r : result A) : A :=
  match r with Ok a => a | Raise _ => d end.

(** [xs[i]] on a Python list, for a non-negative index. *)
Definition index {A : Type} (xs : list A) (i : nat) : result A :=
  match nth_error xs i with
  | Some x => Ok x
  | None => Raise IndexError
  end.

(** [a < b] on numbers. *)
Definition Qlt_bool (a b : Q) : bool := negb (Qle_bool b a).

(** [range(n)]: empty when [n <= 0]. *)
Definition range (n : Z) : list Z := List.map Z.of_nat (seq 0 (Z.to_nat n)).

(** ** Numbers and their [.3f] rendering *)

(** Nearest integer to [x * 1000], ties to even: the digits that
    [format(x, ".3f")] prints. *)
Definition round3 (x : Q) : Z :=
  let n := (Qnum x * 1000)%Z in
  let d := Zpos (Qden x) in
  let q := (n / d)%Z in
  let r := (n mod d)%Z in
  match (2 * r ?= d)%Z with
  | Lt => q
  | Gt => (q + 1)%Z
  | Eq => if Z.even q then q else (q + 1)%Z
  end.

Definition dec (n : N) : string := NilZero.string_of_uint (N.to_uint n).

(** Three digits, zero padded. *)
Definition dec3 (n : N) : string :=
  dec (n / 100 mod 10) ++ dec (n / 10 mod 10) ++ dec (n mod 10).

(** [f"{x:.3f}"]: the sign is the sign of [x] itself, so a negative value
    that rounds to zero prints as [-0.000]. *)
Definition fmt3 (x : Q) : string :=
  let k := Z.abs_N (round3 x) in
  (if Qle_bool 0 x then "" else "-") ++ dec (k / 1000) ++ "." ++ dec3 (k mod 1000).

(** [str(n)] for an integer. *)
Definition str_Z (n : Z) : string :=
  (if (n <? 0)%Z then "-" else "") ++ dec (Z.abs_N n).

Definition point : Type := (Q * Q * Q)%type.
Definition px (pt : point) : Q := fst (fst pt).
Definition py (pt : point) : Q := snd (fst pt).
Definition pz (pt : point) : Q := snd pt.

(** [f"N_{x:.3f}_{y:.3f}_{z:.3f}"] *)
Definition node_name (pt : point) : string :=
  "N_" ++ fmt3 (px pt) ++ "_" ++ fmt3 (py pt) ++ "_" ++ fmt3 (pz pt).

(** [f"M_{a}_{b}"] *)
Definition member_name (a b : string) : string := "M_" ++ a ++ "_" ++ b.


(** ** Parameters *)

(** The [params] dictionary.  Counts are the integers that [int(...)]
    returns; every other entry is a number. *)
Record Params : Type := {
  panel_length : Q; panel_width : Q; panel_thickness : Q;
  angle : Q; rows : Z; cols : Z;
  front_offset : Q; rear_offset : Q; purlin_offset : Q;
  rafter_purlin_offset : Q; hor_panel_overhang : Q; hor_purlin_overhang : Q;
  h_gap : Q; v_gap : Q;
  col_min_height : Q;
  col_len : Q; col_wid : Q; col_thk : Q;
  raf_len : Q; raf_wid : Q; raf_thk : Q;
  pur_len : Q; pur_wid : Q; pur_thk : Q;
  blk_len : Q; blk_wid : Q; blk_heigth : Q;
  y_cols : Z; x_cols : Z;
  copies_in_x : Z; x_gap : Q; copies_in_y : Z; y_gap : Q
}.

(** The functions of Python's [math] module that the engine calls. *)
Record MathModule : Type := {
  radians : Q -> Q;
  cos : Q -> Q;
  sin : Q -> Q;
  tan : Q -> Q
}.

(** ** Render primitives *)

Inductive profile : Type :=
| Box
| CSection (thickness : Q).

(** What a builder hands to the CAD kernel: the solid, its rotations
    (axis, degrees) in order, and the final translation. *)
Record Mesh : Type := {
  m_name : string;
  m_color : string;
  m_profile : profile;
  m_center : point;
  m_length : Q;
  m_width : Q;
  m_height : Q;
  m_rotations : list ((Z * Z * Z) * Q)
}.

Inductive primitive : Type :=
| Mesh3d (m : Mesh)
| Scatter3d (x y z : list Q) (size : Z) (color name : string).

(** [zip(rot_tup, tilt_angle)] as the loop over [range(len(tilt_angle))]
    reads it when [rot_tup] is at least as long as [tilt_angle], which is
    how [generate_structure] calls the two builders; with a shorter
    [rot_tup] the loop raises [IndexError], see [rotation_loop]. *)
Definition rotations (rot_tup : list (Z * Z * Z)) (tilt_angle : list Q)
  : list ((Z * Z * Z) * Q) := combine rot_tup tilt_angle.

Definition create_component_cq (center : point) (length width height : Q)
    (color : string) (tilt_angle : list Q) (rot_tup : list (Z * Z * Z))
    (name : string) : primitive :=
  Mesh3d {| m_name := name; m_color := color; m_profile := Box;
            m_center := center; m_length := length; m_width := width;
            m_height := height; m_rotations := rotations rot_tup tilt_angle |}.

Definition create_c_section_cq (center : point) (length width height thickness : Q)
    (color : string) (rot_tup : list (Z * Z * Z)) (tilt_angle : list Q)
    (name : string) : primitive :=
  Mesh3d {| m_name := name; m_color := color; m_profile := CSection thickness;
            m_center := center; m_length := length; m_width := width;
            m_height := height; m_rotations := rotations rot_tup tilt_angle |}.

Definition create_nodes_plotly (nodes_list : list point) : option primitive :=
  match nodes_list with
  | [] => None
  | _ =>
      Some (Scatter3d (List.map px nodes_list) (List.map py nodes_list)
                      (List.map pz nodes_list) 6 "red" "FEA Nodes")
  end.

Definition C_PANEL := "#e0b14b".
Definition C_COLUMN := "#C44646".
Definition C_PURLIN := "#379c09".
Definition C_RAFTER := "#2292DD".
Definition C_BLOCK := "#00AB8F".

(** ** The layout calculator *)

Section Layout.

Variable M : MathModule.
Variable p : Params.

Definition angle_rad : Q := radians M (angle p).

Definition horiz_spacing : Q := panel_width p + h_gap p.
Definition vert_spacing : Q := panel_length p + v_gap p.
Definition total_width : Q :=
  inject_Z (cols p) * horiz_spacing - h_gap p - 2 * hor_panel_overhang p.
Definition total_slope_length : Q := inject_Z (rows p) * vert_spacing - v_gap p.
Definition total_ground_length : Q := total_slope_length * cos M angle_rad.

Definition div_y : Z := Z.max 1 (y_cols p - 1).
Definition div_x : Z := Z.max 1 (x_cols p - 1).

Definition y_spacing_ground : Q :=
  (total_ground_length - (front_offset p + rear_offset p) * cos M angle_rad)
  / inject_Z div_y.
Definition x_spacing : Q :=
  if (0 <? div_x)%Z then total_width / inject_Z div_x else 0.

(** The array-copy grid, in the order of the two outer loops. *)
Definition copies : list (Z * Z) :=
  flat_map (fun i => List.map (fun j => (i, j)) (range (copies_in_y p)))
           (range (copies_in_x p)).

(** *** Columns and blocks *)

Definition column_cx (x_i : Z) : Q :=
  if (1 <? x_cols p)%Z
  then hor_panel_overhang p + inject_Z x_i * x_spacing - raf_wid p
  else total_width / 2.
Definition column_cy (y_i : Z) : Q :=
  front_offset p * cos M angle_rad + inject_Z y_i * y_spacing_ground.
Definition calculated_height (y_i : Z) : Q :=
  col_min_height p + column_cy y_i * tan M angle_rad.

Definition column_mesh (i j y_i x_i : Z) : primitive :=
  create_c_section_cq
    (column_cx x_i + x_gap p * inject_Z i, column_cy y_i + y_gap p * inject_Z j,
     calculated_height y_i / 2)
    (col_len p) (col_wid p) (calculated_height y_i) (col_thk p)
    C_COLUMN [(0, 0, 1)%Z] [180] "Column".

Definition block_z_center : Q := - (blk_heigth p / 2).

Definition block_mesh (i j y_i x_i : Z) : primitive :=
  create_component_cq
    (column_cx x_i + x_gap p * inject_Z i, column_cy y_i + y_gap p * inject_Z j,
     block_z_center)
    (blk_len p) (blk_wid p) (blk_heigth p) C_BLOCK [] [] "Block".

(** Meshes appended by the column loops of one array copy. *)
Definition columns_of_copy (ij : Z * Z) : list primitive :=
  flat_map (fun y_i =>
    flat_map (fun x_i => [column_mesh (fst ij) (snd ij) y_i x_i;
                          block_mesh (fst ij) (snd ij) y_i x_i])
             (range (x_cols p)))
    (range (y_cols p)).

Definition column_meshes : list primitive := flat_map columns_of_copy copies.

(** [column_y_pos] as the last array copy leaves it. *)
Definition column_y_pos : list Q := List.map column_cy (range (y_cols p)).
Definition column_heights : list Q := List.map calculated_height (range (y_cols p)).

(** [column_heights.append(calculated_height)] follows the loop over
    [x_i]; with no iteration of that loop the name was never assigned. *)
Definition columns_stage : result (list primitive) :=
  match copies, range (y_cols p), range (x_cols p) with
  | _ :: _, _ :: _, [] => Raise (UnboundLocalError "calculated_height")
  | _, _, _ => Ok column_meshes
  end.

(** *** Rafters *)

Definition rafter_off : Q := purlin_offset p - rafter_purlin_offset p.
Definition rafter_mid_z : Q :=
  col_min_height p + (total_ground_length * tan M angle_rad) / 2 + raf_len p / 2.
Definition rafter_mid_y : Q :=
  (if Qlt_bool 0 rafter_off then rafter_off * cos M angle_rad else 0)
  + (total_ground_length - 2 * rafter_off * cos M angle_rad) / 2.
Definition rafter_height : Q := total_slope_length - 2 * rafter_off.

Definition rafter_rx (x_i : Z) : Q :=
  if (1 <? x_cols p)%Z
  then hor_panel_overhang p + inject_Z x_i * x_spacing
  else total_width / 2.

Definition rafter_mesh (i j x_i : Z) : primitive :=
  create_c_section_cq
    (rafter_rx x_i + x_gap p * inject_Z i, rafter_mid_y + y_gap p * inject_Z j,
     rafter_mid_z)
    (raf_len p) (raf_wid p) rafter_height (raf_thk p)
    C_RAFTER [(1, 0, 0)%Z] [90 + angle p] "Rafter".

Definition rafters_of_copy (ij : Z * Z) : list primitive :=
  List.map (rafter_mesh (fst ij) (snd ij)) (range (x_cols p)).

Definition rafter_meshes : list primitive := flat_map rafters_of_copy copies.

(** One [rx] per rafter per array copy, without the copy offset. *)
Definition rafter_x_nodes : list Q :=
  flat_map (fun _ : Z * Z => List.map rafter_rx (range (x_cols p))) copies.

(** *** Panels *)

Definition local_y (r : Z) : Q := inject_Z r * vert_spacing + panel_length p / 2.
Definition local_x (c : Z) : Q := inject_Z c * horiz_spacing + panel_width p / 2.
Definition pan_y (r : Z) : Q := local_y r * cos M angle_rad.
Definition stack_height : Q :=
  raf_len p + pur_len p + panel_thickness p / 2 + (2 # 100).
Definition pan_z (r : Z) : Q :=
  col_min_height p + local_y r * sin M angle_rad + stack_height.

Definition panel_name (r c : Z) : string :=
  "Panel R" ++ str_Z (r + 1) ++ "C" ++ str_Z (c + 1).

Definition panel_mesh (i j c r : Z) : primitive :=
  create_component_cq
    (local_x c + x_gap p * inject_Z i, pan_y r + y_gap p * inject_Z j, pan_z r)
    (panel_length p) (panel_width p) (panel_thickness p)
    C_PANEL [angle p] [(1, 0, 0)%Z] (panel_name r c).

Definition panels_of_copy (ij : Z * Z) : list primitive :=
  flat_map (fun c => List.map (panel_mesh (fst ij) (snd ij) c) (range (rows p)))
           (range (cols p)).

Definition panel_meshes : list primitive := flat_map panels_of_copy copies.

Definition x_coord (c : Z) : Q :=
  if (1 <? c)%Z
  then local_x c - panel_width p / 2 - h_gap p / 2
  else local_x c - panel_width p / 2.

(** [x_coords] grows over all array copies; [panel_x_coords] is its last
    snapshot. *)
Definition panel_x_coords : list Q :=
  flat_map (fun _ : Z * Z => List.map x_coord (range (cols p))) copies.

(** [x_coord] reads [local_x] after the loop over [r]. *)
Definition panels_stage : result (list primitive) :=
  match copies, range (cols p), range (rows p) with
  | _ :: _, _ :: _, [] => Raise (UnboundLocalError "local_x")
  | _, _, _ => Ok panel_meshes
  end.

(** *** Purlins and the intersection lists *)

Definition purlin_spacing : Q :=
  (panel_length p - purlin_offset p * 2) * cos M angle_rad.
Definition pur_y_pos_1 (row : Z) : Q :=
  inject_Z row * (panel_length p + v_gap p) * cos M angle_rad
  + purlin_offset p * cos M angle_rad.
Definition pur_y_pos_2 (row : Z) : Q := pur_y_pos_1 row + purlin_spacing.
Definition pur_z_pos_1 (row : Z) : Q :=
  col_min_height p + pur_y_pos_1 row * tan M angle_rad + raf_len p * (15 # 10).
Definition pur_z_pos_2 (row : Z) : Q :=
  col_min_height p + pur_y_pos_2 row * tan M angle_rad + raf_len p * (15 # 10).

Definition purlin_cx : Q := hor_panel_overhang p + total_width / 2.
Definition perlin_height : Q := total_width + 2 * hor_purlin_overhang p.

(** The purlin whose centre line is at [(cy, cz)]; the centre takes no
    array-copy offset. *)
Definition purlin_mesh (cy cz : Q) : primitive :=
  create_c_section_cq (purlin_cx, cy, cz)
    (pur_len p) (pur_wid p) perlin_height (pur_thk p)
    C_PURLIN [(0, 1, 0)%Z; (1, 0, 0)%Z] [90; angle p + 90] "Purlin".

Definition per_points (cy cz : Q) : list point :=
  [(purlin_cx - perlin_height / 2, cy, cz); (purlin_cx + perlin_height / 2, cy, cz)].
Definition per_raf_points (cy cz : Q) : list point :=
  List.map (fun x => (x, cy, cz)) rafter_x_nodes.
Definition per_pan_points (cy cz : Q) : list point :=
  List.map (fun x => (x, cy, cz)) panel_x_coords.

Definition up_per_raf_points (row : Z) : list point :=
  per_raf_points (pur_y_pos_1 row) (pur_z_pos_1 row).
Definition low_per_raf_points (row : Z) : list point :=
  per_raf_points (pur_y_pos_2 row) (pur_z_pos_2 row).

Definition purlins_of_row (row : Z) : list primitive :=
  [purlin_mesh (pur_y_pos_1 row) (pur_z_pos_1 row);
   purlin_mesh (pur_y_pos_2 row) (pur_z_pos_2 row)].

Definition purlin_meshes : list primitive :=
  flat_map (fun _ : Z * Z => flat_map purlins_of_row (range (rows p))) copies.

(** One [temp_list] per (array copy, row): upper purlin first. *)
Definition raf_pur_inter_points : list (list (list point)) :=
  flat_map (fun _ : Z * Z =>
    List.map (fun row => [up_per_raf_points row; low_per_raf_points row])
             (range (rows p))) copies.
Definition pur_points : list (list (list point)) :=
  flat_map (fun _ : Z * Z =>
    List.map (fun row => [per_points (pur_y_pos_1 row) (pur_z_pos_1 row);
                          per_points (pur_y_pos_2 row) (pur_z_pos_2 row)])
             (range (rows p))) copies.
Definition pur_pan_inter_points : list (list (list point)) :=
  flat_map (fun _ : Z * Z =>
    List.map (fun row => [per_pan_points (pur_y_pos_1 row) (pur_z_pos_1 row);
                          per_pan_points (pur_y_pos_2 row) (pur_z_pos_2 row)])
             (range (rows p))) copies.

(** The line [z = m*y + c] through the first rafter crossing of the two
    purlins of the last row processed.  The zero test and the quotient
    are those of exact rationals: the model divides by zero only when the
    two crossings have the same y, while in double precision the source
    also does when their spacing is too small to change the sum
    [pur_y_pos_1 + purlin_spacing], and its quotient then carries the
    rounding errors of the four coordinates. *)
Definition fit_line (up low : point) : result (Q * Q) :=
  if Qeq_bool (py low - py up) 0 then Raise ZeroDivisionError
  else
    let m := (pz low - pz up) / (py low - py up) in
    let c := pz low - m * py low in
    Ok (m, c).

Definition roof_line : result (Q * Q) :=
  match rev (range (rows p)) with
  | [] => Raise (UnboundLocalError "low_per_raf_points")
  | row :: _ =>
      let! low := index (low_per_raf_points row) 0 in
      let! up := index (up_per_raf_points row) 0 in
      fit_line up low
  end.

(** [column_top_height = m*np.array(column_y_pos) + c] *)
Definition column_top_height (m c : Q) : list Q :=
  List.map (fun y => m * y + c) column_y_pos.

(** The column segments that one array copy appends to [column_coords]. *)
Definition column_coords_of_copy (m c : Q) : list (list point) :=
  flat_map (fun x =>
    List.map (fun yt => [(x, fst yt, 0); (x, fst yt, snd yt)])
             (combine column_y_pos (column_top_height m c)))
    rafter_x_nodes.

Definition column_coords : result (list (list point)) :=
  match copies with
  | [] => Ok []
  | _ :: _ =>
      let! mc := roof_line in
      Ok (flat_map (fun _ : Z * Z => column_coords_of_copy (fst mc) (snd mc)) copies)
  end.

(** *** All FE nodes, in the order the four lists are flattened *)

Definition all_fea_nodes (column_coords : list (list point)) : list point :=
  (concat (concat raf_pur_inter_points) ++ concat (concat pur_points)
   ++ concat (concat pur_pan_inter_points) ++ concat column_coords)%list.

End Layout.

(** ** The structural model *)

Record Member : Type := {
  i_node : string;
  j_node : string;
  material_name : string;
  section_name : string;
  rotation : Q
}.

(** [FEModel3D]: the [nodes] and [members] dictionaries. *)
Record FEModel3D : Type := {
  nodes : gmap string point;
  members : gmap string Member
}.

Definition empty_model : FEModel3D := {| nodes := ∅; members := ∅ |}.

Definition node_exists : exn := NameError "Node name already exists".
Definition member_exists : exn := NameError "Member name already exists".
Definition nodes_missing : exn := NameError "Nodes do not exist in the model".

(** [model.add_node(name, x, y, z)] *)
Definition add_node (model : FEModel3D) (name : string) (pt : point)
  : result FEModel3D :=
  match nodes model !! name with
  | Some _ => Raise node_exists
  | None => Ok {| nodes := <[name := pt]> (nodes model); members := members model |}
  end.

(** [model.add_member(name, i_node, j_node, material, section, rotation)] *)
Definition add_member (model : FEModel3D) (name : string) (mem : Member)
  : result FEModel3D :=
  match members model !! name with
  | Some _ => Raise member_exists
  | None =>
      match nodes model !! i_node mem, nodes model !! j_node mem with
      | Some _, Some _ =>
          Ok {| nodes := nodes model; members := <[name := mem]> (members model) |}
      | _, _ => Raise nodes_missing
      end
  end.

(** ** The FE-topology builder *)

(** [np.concatenate((a, b), axis=0)] followed by the column slice [[:,0]]:
    an empty list becomes a one-dimensional array, which does not
    concatenate with an [n x 3] one, and cannot be sliced by column. *)
Definition concatenate (a b : list point) : result (list point) :=
  match a, b with
  | [], [] => Raise IndexError
  | [], _ :: _ => Raise ValueError
  | _ :: _, [] => Raise ValueError
  | _, _ => Ok (a ++ b)%list
  end.

(** Sorting along x ([argsort] on column 0).  Points that tie on x keep
    their order. *)
Fixpoint insert_by_x (pt : point) (l : list point) : list point :=
  match l with
  | [] => [pt]
  | h :: t => if Qle_bool (px pt) (px h) then pt :: h :: t else h :: insert_by_x pt t
  end.

Fixpoint sort_by_x (l : list point) : list point :=
  match l with
  | [] => []
  | h :: t => insert_by_x h (sort_by_x t)
  end.

(** The node loop of one purlin: a point whose name is taken makes
    [add_node] raise, the bare [except] swallows it, and the name is not
    appended. *)
Fixpoint add_purlin_nodes (model : FEModel3D) (pts : list point)
    (node_names : list string) : FEModel3D * list string :=
  match pts with
  | [] => (model, node_names)
  | pt :: rest =>
      match add_node model (node_name pt) pt with
      | Ok model' => add_purlin_nodes model' rest (node_names ++ [node_name pt])%list
      | Raise _ => add_purlin_nodes model rest node_names
      end
  end.

(** [for q in range(len(node_names)-1): model.add_member(...)] *)
Fixpoint add_member_chain (model : FEModel3D) (node_names : list string)
    (material section : string) (rot : Q) : result FEModel3D :=
  match node_names with
  | a :: (b :: _) as rest =>
      let! model' := add_member model (member_name a b)
                       {| i_node := a; j_node := b; material_name := material;
                          section_name := section; rotation := rot |} in
      add_member_chain model' rest material section rot
  | _ => Ok model
  end.

(** A loop whose body may raise. *)
Fixpoint for_each {A S : Type} (xs : list A) (body : S -> A -> result S) (s : S)
  : result S :=
  match xs with
  | [] => Ok s
  | x :: rest => let! s' := body s x in for_each rest body s'
  end.

(** The builder's state: the model, and [node_names] once a purlin has
    bound it. *)
Definition builder_state : Type := (FEModel3D * option (list string))%type.

Section Builder.

Variable raf_pur_inter_points : list (list (list point)).
Variable pur_points : list (list (list point)).
Variable pur_pan_inter_points : list (list (list point)).
Variable column_coords : list (list point).

(** [(i, j)] as the two purlin loops enumerate them. *)
Definition purlin_indices : list (nat * nat) :=
  flat_map (fun i => List.map (fun j => (i, j))
                       (seq 0 (length (nth i pur_points []))))
           (seq 0 (length pur_points)).

(** [one_purlin_nodes]: left end, the sorted crossings, right end. *)
Definition one_purlin_nodes (i j : nat) : result (list point) :=
  let! pur_i := index pur_points i in
  let! ends := index pur_i j in
  let! left_end := index ends 0 in
  let! raf_i := index raf_pur_inter_points i in
  let! r_p_points := index raf_i j in
  let! pan_i := index pur_pan_inter_points i in
  let! p_p_points := index pan_i j in
  let! concat_points := concatenate r_p_points p_p_points in
  let sorted_points := sort_by_x concat_points in
  let! right_end := index ends 1 in
  Ok (left_end :: sorted_points ++ [right_end])%list.

Definition build_purlin (purlin_angle : Q) (st : builder_state) (ij : nat * nat)
  : result builder_state :=
  let! pts := one_purlin_nodes (fst ij) (snd ij) in
  let mn := add_purlin_nodes (fst st) pts [] in
  let! model := add_member_chain (fst mn) (snd mn) "purlin_mat" "purlin_sec"
                  purlin_angle in
  Ok (model, Some (snd mn)).

(** The points the rafter loop gathers for rafter [i] from the purlin
    crossings: upper then lower, row by row. *)
Definition rafter_crossings (i : nat) : result (list point) :=
  for_each (seq 0 (length raf_pur_inter_points))
    (fun acc j =>
       for_each [0; 1]%nat
         (fun acc k =>
            let! row := index raf_pur_inter_points j in
            let! pur := index row k in
            let! raf_point := index pur i in
            Ok (acc ++ [raf_point])%list)
         acc)
    [].

(** The column loop of rafter [i]: each [column_coords[i][c]] is added to
    the model with an unguarded [add_node].  Returns the model and the
    column nodes gathered. *)
Definition add_column_nodes (model : FEModel3D) (i : nat) (y_cols_count : Z)
  : result (FEModel3D * list point) :=
  for_each (seq 0 (Z.to_nat y_cols_count))
    (fun acc c =>
       let! seg := index column_coords i in
       let! column_node := index seg c in
       let! model' := add_node (fst acc) (node_name column_node) column_node in
       Ok (model', (snd acc ++ [column_node])%list))
    (model, []).

(** [one_rafter_names] as the loop leaves it for rafter [i]. *)
Definition one_rafter_names (model : FEModel3D) (i : nat) (y_cols_count : Z)
  : result (list string) :=
  let! crossings := rafter_crossings i in
  let! cols := add_column_nodes model i y_cols_count in
  Ok (List.map node_name (crossings ++ snd cols)%list).

(** One iteration of the rafter loop.  [one_rafter_names] and
    [one_rafter_nodes] are filled and not read; the members are chained
    from [node_names], which the purlin loop bound last. *)
Definition build_rafter (y_cols_count : Z) (rafter_angle : Q)
    (st : builder_state) (i : nat) : result builder_state :=
  let! crossings := rafter_crossings i in
  let! cols := add_column_nodes (fst st) i y_cols_count in
  match snd st with
  | None => Raise (UnboundLocalError "node_names")
  | Some node_names =>
      let! model := add_member_chain (fst cols) node_names "rafter_mat" "rafter_sec"
                      rafter_angle in
      Ok (model, Some node_names)
  end.

Definition purlin_loop (purlin_angle : Q) : result builder_state :=
  for_each purlin_indices (build_purlin purlin_angle) (empty_model, None).

Definition rafter_loop (x_cols_count y_cols_count : Z) (rafter_angle : Q)
    (st : builder_state) : result builder_state :=
  for_each (seq 0 (Z.to_nat x_cols_count)) (build_rafter y_cols_count rafter_angle) st.

Definition build_model (angle : Q) (x_cols_count y_cols_count : Z)
  : result FEModel3D :=
  let purlin_angle := angle + 90 in
  let! st := purlin_loop purlin_angle in
  let rafter_angle := 0 in
  let! st' := rafter_loop x_cols_count y_cols_count rafter_angle st in
  Ok (fst st').

End Builder.

(** ** [generate_structure] *)

Section Generate.

Variable M : MathModule.
Variable p : Params.

Definition node_trace (all_nodes : list point) : list primitive :=
  match create_nodes_plotly all_nodes with
  | Some trace => [trace]
  | None => []
  end.

(** Everything one call computes: the meshes, the FE node list and the
    structural model. *)
Definition run_structure : result (list primitive * list point * FEModel3D) :=
  let! m3 := columns_stage M p in
  let m4 := rafter_meshes M p in
  let! m6 := panels_stage M p in
  let! cc := column_coords M p in
  let m5 := purlin_meshes M p in
  let all_nodes := all_fea_nodes M p cc in
  let meshes := (m3 ++ m4 ++ m6 ++ m5 ++ node_trace all_nodes)%list in
  let! model := build_model (raf_pur_inter_points M p) (pur_points M p)
                  (pur_pan_inter_points M p) cc (angle p) (x_cols p) (y_cols p) in
  Ok (meshes, all_nodes, model).

(** [return meshes, all_fea_nodes] *)
Definition generate_structure : result (list primitive * list point) :=
  let! r := run_structure in
  Ok (fst (fst r), snd (fst r)).

End Generate.

(** ** Parameter sets and predicates used by the statements *)

(** A valid parameter set: every count at least 1, every dimension
    positive. *)
Record valid (p : Params) : Prop := {
  valid_rows : (1 <= rows p)%Z;
  valid_cols : (1 <= cols p)%Z;
  valid_x_cols : (1 <= x_cols p)%Z;
  valid_y_cols : (1 <= y_cols p)%Z;
  valid_copies_in_x : (1 <= copies_in_x p)%Z;
  valid_copies_in_y : (1 <= copies_in_y p)%Z;
  valid_panel : 0 < panel_length p /\ 0 < panel_width p /\ 0 < panel_thickness p;
  valid_block : 0 < blk_len p /\ 0 < blk_wid p /\ 0 < blk_heigth p;
  valid_sections :
    0 < col_len p /\ 0 < col_wid p /\ 0 < col_thk p /\
    0 < raf_len p /\ 0 < raf_wid p /\ 0 < raf_thk p /\
    0 < pur_len p /\ 0 < pur_wid p /\ 0 < pur_thk p;
  valid_height : 0 < col_min_height p
}.

(** The [math] functions at tilt angle 0, the only angle at which the
    concrete runs below call them. *)
Definition level_math : MathModule :=
  {| radians := fun _ => 0; cos := fun _ => 1; sin := fun _ => 0; tan := fun _ => 0 |}.

(** The dashboard's default values on a level roof, with the column
    offsets, the overhangs and the counts left open. *)
Definition dashboard (front rear hpo hpuo : Q) (nx ny xc yc : Z) : Params :=
  {| panel_length := 17 # 10; panel_width := 1; panel_thickness := 4 # 100;
     angle := 0; rows := 2; cols := 3;
     front_offset := front; rear_offset := rear; purlin_offset := 3 # 10;
     rafter_purlin_offset := 2 # 10;
     hor_panel_overhang := hpo; hor_purlin_overhang := hpuo;
     h_gap := 2 # 100; v_gap := 2 # 100;
     col_min_height := 2;
     col_len := 15 # 100; col_wid := 15 # 100; col_thk := 1 # 100;
     raf_len := 15 # 100; raf_wid := 15 # 100; raf_thk := 1 # 100;
     pur_len := 15 # 100; pur_wid := 15 # 100; pur_thk := 1 # 100;
     blk_len := 1; blk_wid := 1; blk_heigth := 1;
     y_cols := yc; x_cols := xc;
     copies_in_x := nx; x_gap := 20; copies_in_y := ny; y_gap := 20 |}.

(** Every default of the dashboard. *)
Definition defaults : Params := dashboard (3 # 10) (3 # 10) (2 # 10) (2 # 10) 1 1 2 2.

(** Two array copies along x, columns set 0.4 in from both slope ends. *)
Definition two_copies : Params := dashboard (4 # 10) (4 # 10) (2 # 10) (2 # 10) 2 1 2 2.

(** One array copy, columns set 0.4 in from both slope ends. *)
Definition one_copy : Params := dashboard (4 # 10) (4 # 10) (2 # 10) (2 # 10) 1 1 2 2.

(** Panels overhanging further than the purlins. *)
Definition wide_panels : Params := dashboard (4 # 10) (4 # 10) (5 # 10) (2 # 10) 2 1 2 2.

(** A single support column along the width. *)
Definition single_x_col : Params := dashboard (4 # 10) (4 # 10) (2 # 10) (2 # 10) 2 1 1 2.

(** No array copy and no support column: nothing is generated. *)
Definition nothing : Params := dashboard (4 # 10) (4 # 10) (2 # 10) (2 # 10) 0 1 0 2.

Definition mesh_named (name : string) (prim : primitive) : bool :=
  match prim with
  | Mesh3d m => String.eqb (m_name m) name
  | Scatter3d _ _ _ _ _ _ => false
  end.

(** [name.startswith(pre)] *)
Fixpoint starts_with (pre name : string) : bool :=
  match pre with
  | EmptyString => true
  | String a pre' =>
      match name with
      | EmptyString => false
      | String b name' => Ascii.eqb a b && starts_with pre' name'
      end
  end.

(** Panels are the meshes named [Panel R..C..]. *)
Definition is_panel (prim : primitive) : bool :=
  match prim with
  | Mesh3d m => starts_with "Panel R" (m_name m)
  | Scatter3d _ _ _ _ _ _ => false
  end.

Definition is_scatter (prim : primitive) : bool :=
  match prim with
  | Mesh3d _ => false
  | Scatter3d _ _ _ _ _ _ => true
  end.

Definition center_of (prim : primitive) : option point :=
  match prim with
  | Mesh3d m => Some (m_center m)
  | Scatter3d _ _ _ _ _ _ => None
  end.

(** The markers of a point cloud, one per index. *)
Definition markers (prim : primitive) : list point :=
  match prim with
  | Mesh3d _ => []
  | Scatter3d x y z _ _ _ => combine (combine x y) z
  end.

(** A list made of consecutive pairs related by [R]. *)
Inductive Pairs {A : Type} (R : A -> A -> Prop) : list A -> Prop :=
| Pairs_nil : Pairs R []
| Pairs_cons a b l : R a b -> Pairs R l -> Pairs R (a :: b :: l).

(** Does a member of the model join [a] and [b]? *)
Definition joins (a b : string) (mem : Member) : bool :=
  (String.eqb (i_node mem) a && String.eqb (j_node mem) b)
  || (String.eqb (i_node mem) b && String.eqb (j_node mem) a).

Definition member_between (model : FEModel3D) (a b : string) : bool :=
  existsb (fun kv => joins a b (snd kv)) (map_to_list (members model)).

(** The members of the model that carry a given material. *)
Definition members_of_material (model : FEModel3D) (material : string)
  : list (string * Member) :=
  List.filter (fun kv => String.eqb (material_name (snd kv)) material)
              (map_to_list (members model)).

(** A ground block under its column: same centre in plan, centred half
    its height below ground, an unrotated box. *)
Definition block_on_column (p : Params) (col blk : primitive) : Prop :=
  exists c b,
    col = Mesh3d c /\ blk = Mesh3d b /\
    m_name c = "Column" /\ m_name b = "Block" /\
    m_profile b = Box /\ m_rotations b = [] /\ m_height b = blk_heigth p /\
    px (m_center b) = px (m_center c) /\ py (m_center b) = py (m_center c) /\
    pz (m_center b) = - (blk_heigth p / 2).

(** The vertical extent of an unrotated solid of height [m_height]
    centred at [m_center]. *)
Definition top_face (m : Mesh) : Q := pz (m_center m) + m_height m / 2.
Definition bottom_face (m : Mesh) : Q := pz (m_center m) - m_height m / 2.

(** The x of the centre of every mesh of a given name, in list order and
    in lowest terms. *)
Definition centres_x (name : string) (meshes : list primitive) : list Q :=
  flat_map (fun prim => match center_of prim with
                        | Some c => [Qred (px c)]
                        | None => []
                        end)
           (List.filter (mesh_named name) meshes).

(** The state in which the purlin loop of a call leaves the builder. *)
Definition purlins_built (M : MathModule) (p : Params) : result builder_state :=
  purlin_loop (raf_pur_inter_points M p) (pur_points M p)
              (pur_pan_inter_points M p) (angle p + 90).

(** The points of purlin [(i, j)] of a call, as they are chained. *)
Definition purlin_points (M : MathModule) (p : Params) (i j : nat)
  : result (list point) :=
  one_purlin_nodes (raf_pur_inter_points M p) (pur_points M p)
                   (pur_pan_inter_points M p) i j.

Definition is_registered (model : FEModel3D) (name : string) : bool :=
  bool_decide (is_Some (nodes model !! name)).

(** Ascending along x. *)
Definition x_le (a b : point) : Prop := px a <= px b.

(** The purlins overhanging 0.0001 more than the panels. *)
Definition long_purlins : Params :=
  dashboard (4 # 10) (4 # 10) (2 # 10) (2001 # 10000) 2 1 2 2.

(** Every member of the model is a purlin member. *)
Definition only_purlin_members (model : FEModel3D) : Prop :=
  forall name mem, members model !! name = Some mem -> material_name mem = "purlin_mat".

(** The member between the first two names of a chain is in the model. *)
Definition head_member_registered (model : FEModel3D) (names : list string) : Prop :=
  forall a b rest, names = a :: b :: rest -> is_Some (members model !! member_name a b).

(** What the purlin loop maintains and the rafter loop meets. *)
Definition purlin_state (st : builder_state) : Prop :=
  only_purlin_members (fst st) /\
  forall names, snd st = Some names -> head_member_registered (fst st) names.

(** The same parameters with another purlin offset. *)
Definition with_purlin_offset (offset : Q) (p : Params) : Params :=
  {| panel_length := panel_length p; panel_width := panel_width p;
     panel_thickness := panel_thickness p;
     angle := angle p; rows := rows p; cols := cols p;
     front_offset := front_offset p; rear_offset := rear_offset p;
     purlin_offset := offset;
     rafter_purlin_offset := rafter_purlin_offset p;
     hor_panel_overhang := hor_panel_overhang p;
     hor_purlin_overhang := hor_purlin_overhang p;
     h_gap := h_gap p; v_gap := v_gap p;
     col_min_height := col_min_height p;
     col_len := col_len p; col_wid := col_wid p; col_thk := col_thk p;
     raf_len := raf_len p; raf_wid := raf_wid p; raf_thk := raf_thk p;
     pur_len := pur_len p; pur_wid := pur_wid p; pur_thk := pur_thk p;
     blk_len := blk_len p; blk_wid := blk_wid p; blk_heigth := blk_heigth p;
     y_cols := y_cols p; x_cols := x_cols p;
     copies_in_x := copies_in_x p; x_gap := x_gap p;
     copies_in_y := copies_in_y p; y_gap := y_gap p |}.

(** Purlins at mid panel: the two purlins of a row coincide. *)
Definition flat_pair : Params := with_purlin_offset (85 # 100) one_copy.

(** The two edges of panel column [c] across the width, and of panel row
    [r] along the slope. *)
Definition panel_left (p : Params) (c : Z) : Q := local_x p c - panel_width p / 2.
Definition panel_right (p : Params) (c : Z) : Q := local_x p c + panel_width p / 2.
Definition panel_low (p : Params) (r : Z) : Q := local_y p r - panel_length p / 2.
Definition panel_high (p : Params) (r : Z) : Q := local_y p r + panel_length p / 2.

(** The height of the roof law [col_min_height + y * tan] above ground
    position [y]. *)
Definition roof_height (M : MathModule) (p : Params) (y : Q) : Q :=
  col_min_height p + y * tan M (angle_rad M p).

(** A model whose dictionaries are keyed by the formatted names, and
    whose members join two distinct nodes of the model. *)
Definition well_formed (model : FEModel3D) : Prop :=
  (forall k pt, nodes model !! k = Some pt -> k = node_name pt) /\
  (forall k mem,
     members model !! k = Some mem ->
     k = member_name (i_node mem) (j_node mem) /\
     is_Some (nodes model !! i_node mem) /\
     is_Some (nodes model !! j_node mem) /\
     i_node mem <> j_node mem).

(** A builder state whose model is well formed and whose [node_names],
    once bound, are distinct nodes of the model. *)
Definition chain_ready (st : builder_state) : Prop :=
  well_formed (fst st) /\
  forall names,
    snd st = Some names ->
    NoDup names /\ forall n, n ∈ names -> is_Some (nodes (fst st) !! n).

(** Every point of the list is a node of the model. *)
Definition all_registered (model : FEModel3D) (pts : list point) : Prop :=
  forall pt, In pt pts -> is_Some (nodes model !! node_name pt).

(** ** The two builders, before the CAD kernel *)

(** The rotation loop of both builders, [for i in range(len(tilt_angle))]
    under the guard [len(tilt_angle) >= 0], which always holds:
    [rot_tup[i]] is read, then [tilt_angle[i]]. *)
Definition rotation_loop (rot_tup : list (Z * Z * Z)) (tilt_angle : list Q)
  : result (list ((Z * Z * Z) * Q)) :=
  for_each (seq 0 (length tilt_angle))
    (fun done i =>
       let! axis := index rot_tup i in
       let! degrees := index tilt_angle i in
       Ok (done ++ [(axis, degrees)])%list)
    [].







(** ** The earlier generator, [geometry_backup.py] *)

(** [geometry_backup.generate_structure] unpacks the same parameters,
    derives the same dimensions and runs the same column and rafter loops;
    its purlin centres take the array-copy offset, its panel loops run
    rows outside columns, and it returns the meshes alone. *)
Module Backup.
Section Layout.

Variable M : MathModule.
Variable p : Params.

Definition purlin_mesh (i j : Z) (cy cz : Q) : primitive :=
  create_c_section_cq
    (hor_panel_overhang p + total_width p / 2 + x_gap p * inject_Z i,
     cy + y_gap p * inject_Z j, cz)
    (pur_len p) (pur_wid p) (total_width p + 2 * hor_purlin_overhang p) (pur_thk p)
    C_PURLIN [(0, 1, 0)%Z; (1, 0, 0)%Z] [90; angle p + 90] "Purlin".

Definition purlins_of_copy (ij : Z * Z) : list primitive :=
  flat_map (fun row =>
              [purlin_mesh (fst ij) (snd ij) (pur_y_pos_1 M p row) (pur_z_pos_1 M p row);
               purlin_mesh (fst ij) (snd ij) (pur_y_pos_2 M p row) (pur_z_pos_2 M p row)])
           (range (rows p)).

Definition purlin_meshes : list primitive := flat_map purlins_of_copy (copies p).

Definition panels_of_copy (ij : Z * Z) : list primitive :=
  flat_map (fun r => List.map (fun c => panel_mesh M p (fst ij) (snd ij) c r)
                              (range (cols p)))
           (range (rows p)).

Definition panel_meshes : list primitive := flat_map panels_of_copy (copies p).

(** [return meshes] *)
Definition generate_structure : list primitive :=
  (column_meshes M p ++ rafter_meshes M p ++ purlin_meshes ++ panel_meshes)%list.

End Layout.
End Backup.

(** [b] is the mesh [a] with its centre moved by [(dx, dy, 0)]. *)
Definition moved_by (dx dy : Q) (a b : primitive) : Prop :=
  match a, b with
  | Mesh3d ma, Mesh3d mb =>
      px (m_center mb) == px (m_center ma) + dx /\
      py (m_center mb) == py (m_center ma) + dy /\
      pz (m_center mb) = pz (m_center ma) /\
      m_name mb = m_name ma /\ m_color mb = m_color ma /\
      m_profile mb = m_profile ma /\ m_length mb = m_length ma /\
      m_width mb = m_width ma /\ m_height mb = m_height ma /\
      m_rotations mb = m_rotations ma
  | _, _ => False
  end.

(** ** The wind load of the dashboard, [app_backup.py] *)

Definition velocity_mps (velocity_kmh : Q) : Q := velocity_kmh / (36 # 10).

(** [0.613 * ke * kz * kzt * kd * (velocity_mps ** 2)] *)
Definition velocity_pressure (ke kz kzt kd velocity_kmh : Q) : Q :=
  (613 # 1000) * ke * kz * kzt * kd * (velocity_mps velocity_kmh ^ 2).

(** * Verification *)

(** ** The [.3f] rendering on a few values *)

Example fmt3_pads : fmt3 (3 # 10) = "0.300".
Proof. reflexivity. Qed.

Example fmt3_rounds_up : fmt3 (19996 # 10000) = "2.000".
Proof. reflexivity. Qed.

Example fmt3_ties_to_even : fmt3 (1 # 16) = "0.062" /\ fmt3 (3 # 16) = "0.188".
Proof. split; reflexivity. Qed.

Example fmt3_negative : fmt3 (-12346 # 10000) = "-1.235".
Proof. reflexivity. Qed.

Example fmt3_negative_zero : fmt3 (-1 # 10000) = "-0.000".
Proof. reflexivity. Qed.

Example node_name_example : node_name (3 # 10, 0, 2225 # 1000) = "N_0.300_0.000_2.225".
Proof. reflexivity. Qed.

Example panel_name_example : panel_name 1 2 = "Panel R2C3".
Proof. reflexivity. Qed.

(** ** Lists and loops *)

Lemma ok_value {A : Type} (d : A) (r : result A) :
  is_ok r = true -> r = Ok (value_or d r).
Proof. destruct r; simpl; [reflexivity|discriminate]. Qed.

Lemma ok_pair {A B : Type} (d : A * B) (r : result (A * B)) (b : B) :
  is_ok r = true -> snd (value_or d r) = b -> r = Ok (fst (value_or d r), b).
Proof.
  destruct r as [[a b']|]; simpl; [|discriminate]. now intros _ ->.
Qed.

Lemma ok_triple {A B C : Type} (d : A * B * C) (r : result (A * B * C)) :
  is_ok r = true ->
  r = Ok (fst (fst (value_or d r)), snd (fst (value_or d r)), snd (value_or d r)).
Proof.
  destruct r as [[[a b] c]|]; simpl; [reflexivity|discriminate].
Qed.

Lemma length_range (n : Z) : length (range n) = Z.to_nat n.
Proof. unfold range. now rewrite length_map, length_seq. Qed.

Lemma range_nonempty (n : Z) : (1 <= n)%Z -> exists a l, range n = a :: l.
Proof.
  intros Hn. destruct (range n) as [|a l] eqn:E; [|now eauto].
  apply (f_equal (@length Z)) in E. rewrite length_range in E. simpl in E. lia.
Qed.

Lemma length_flat_map_const {A B : Type} (f : A -> list B) (n : nat) (l : list A) :
  (forall a, length (f a) = n) -> length (flat_map f l) = (length l * n)%nat.
Proof.
  intros Hf. induction l as [|a l IH]; simpl; [reflexivity|].
  now rewrite length_app, Hf, IH.
Qed.

Lemma length_copies (p : Params) :
  length (copies p) = (Z.to_nat (copies_in_x p) * Z.to_nat (copies_in_y p))%nat.
Proof.
  unfold copies. rewrite (length_flat_map_const _ (Z.to_nat (copies_in_y p))).
  - now rewrite length_range.
  - intros i. now rewrite length_map, length_range.
Qed.

Lemma length_filter_flat_map {A B : Type} (f : B -> bool) (g : A -> list B)
    (k : nat) (l : list A) :
  (forall a, length (List.filter f (g a)) = k) ->
  length (List.filter f (flat_map g l)) = (length l * k)%nat.
Proof.
  intros Hg. induction l as [|a l IH]; simpl; [reflexivity|].
  now rewrite List.filter_app, length_app, Hg, IH.
Qed.

Lemma length_filter_map_all {A B : Type} (f : B -> bool) (g : A -> B) (l : list A) :
  (forall a, f (g a) = true) -> length (List.filter f (List.map g l)) = length l.
Proof.
  intros Hg. induction l as [|a l IH]; simpl; [reflexivity|].
  rewrite Hg. simpl. now rewrite IH.
Qed.

Lemma length_filter_map_none {A B : Type} (f : B -> bool) (g : A -> B) (l : list A) :
  (forall a, f (g a) = false) -> length (List.filter f (List.map g l)) = 0%nat.
Proof.
  intros Hg. induction l as [|a l IH]; simpl; [reflexivity|]. now rewrite Hg.
Qed.

Lemma in_range (n k : Z) : In k (range n) <-> (0 <= k < n)%Z.
Proof.
  unfold range. rewrite in_map_iff. split.
  - intros (a & <- & Ha). apply in_seq in Ha. lia.
  - intros Hk. exists (Z.to_nat k). split; [lia|]. apply in_seq. lia.
Qed.

Lemma in_copies (p : Params) (i j : Z) :
  In (i, j) (copies p)
  <-> (0 <= i < copies_in_x p)%Z /\ (0 <= j < copies_in_y p)%Z.
Proof.
  unfold copies. rewrite in_flat_map. split.
  - intros (a & Ha & Hin). apply in_map_iff in Hin as (b & Hb & Hin).
    injection Hb as <- <-. now rewrite <- !in_range.
  - intros [Hi Hj]. exists i. split; [now apply in_range|].
    apply in_map_iff. exists j. split; [reflexivity|now apply in_range].
Qed.

Lemma copies_nonempty (p : Params) :
  (1 <= copies_in_x p)%Z -> (1 <= copies_in_y p)%Z -> exists ij l, copies p = ij :: l.
Proof.
  intros Hx Hy. destruct (copies p) as [|ij l] eqn:E; [|now eauto].
  apply (f_equal (@length (Z * Z))) in E. rewrite length_copies in E. simpl in E. nia.
Qed.

Lemma filter_none {A : Type} (f : A -> bool) (l : list A) :
  List.Forall (fun a => f a = false) l -> List.filter f l = [].
Proof.
  induction 1 as [|a l Ha _ IH]; simpl; [reflexivity|]. now rewrite Ha.
Qed.

Lemma filter_all {A : Type} (f : A -> bool) (l : list A) :
  List.Forall (fun a => f a = true) l -> List.filter f l = l.
Proof.
  induction 1 as [|a l Ha _ IH]; simpl; [reflexivity|]. now rewrite Ha, IH.
Qed.

Lemma Forall_flat_map_intro {A B : Type} (P : B -> Prop) (f : A -> list B) (l : list A) :
  (forall a, List.Forall P (f a)) -> List.Forall P (flat_map f l).
Proof.
  intros Hf. induction l as [|a l IH]; simpl; [constructor|].
  apply Forall_app. now split.
Qed.

Lemma Forall_map_intro {A B : Type} (P : B -> Prop) (f : A -> B) (l : list A) :
  (forall a, P (f a)) -> List.Forall P (List.map f l).
Proof.
  intros Hf. induction l as [|a l IH]; simpl; constructor; auto.
Qed.

(** ** What each stage appends *)

Section Stages.

Variable M : MathModule.
Variable p : Params.

Lemma column_meshes_not_panel :
  List.Forall (fun prim => is_panel prim = false) (column_meshes M p).
Proof.
  unfold column_meshes, columns_of_copy.
  repeat (apply Forall_flat_map_intro; intros ?).
  repeat constructor.
Qed.

Lemma rafter_meshes_not_panel :
  List.Forall (fun prim => is_panel prim = false) (rafter_meshes M p).
Proof.
  unfold rafter_meshes, rafters_of_copy.
  apply Forall_flat_map_intro; intros ?. apply Forall_map_intro; intros ?. reflexivity.
Qed.

Lemma purlin_meshes_not_panel :
  List.Forall (fun prim => is_panel prim = false) (purlin_meshes M p).
Proof.
  unfold purlin_meshes, purlins_of_row.
  repeat (apply Forall_flat_map_intro; intros ?).
  repeat constructor.
Qed.

Lemma panel_meshes_all_panel :
  List.Forall (fun prim => is_panel prim = true) (panel_meshes M p).
Proof.
  unfold panel_meshes, panels_of_copy.
  repeat (apply Forall_flat_map_intro; intros ?).
  apply Forall_map_intro; intros ?. reflexivity.
Qed.

Lemma node_trace_not_panel (l : list point) :
  List.Forall (fun prim => is_panel prim = false) (node_trace l).
Proof. destruct l; repeat constructor. Qed.

Lemma length_panel_meshes :
  length (panel_meshes M p)
  = (length (copies p) * (Z.to_nat (cols p) * Z.to_nat (rows p)))%nat.
Proof.
  unfold panel_meshes. apply length_flat_map_const. intros ij.
  unfold panels_of_copy.
  rewrite (length_flat_map_const _ (Z.to_nat (rows p))).
  - now rewrite length_range.
  - intros c. now rewrite length_map, length_range.
Qed.

(** The meshes of a completed run, stage by stage. *)
Lemma run_structure_meshes (meshes : list primitive) (all_nodes : list point)
    (model : FEModel3D) :
  run_structure M p = Ok (meshes, all_nodes, model) ->
  exists cc,
    column_coords M p = Ok cc /\
    all_nodes = all_fea_nodes M p cc /\
    meshes = (column_meshes M p ++ rafter_meshes M p ++ panel_meshes M p
              ++ purlin_meshes M p ++ node_trace all_nodes)%list.
Proof.
  unfold run_structure. intros H.
  destruct (columns_stage M p) as [m3|] eqn:E3; simpl in H; [|discriminate].
  destruct (panels_stage M p) as [m6|] eqn:E6; simpl in H; [|discriminate].
  destruct (column_coords M p) as [cc|] eqn:Ec; simpl in H; [|discriminate].
  destruct (build_model _ _ _ _ _ _ _) as [md|]; simpl in H; [|discriminate].
  injection H as <- <- <-. exists cc. split; [reflexivity|]. split; [reflexivity|].
  assert (m3 = column_meshes M p) as ->.
  { unfold columns_stage in E3.
    destruct (copies p), (range (y_cols p)), (range (x_cols p)); congruence. }
  assert (m6 = panel_meshes M p) as ->.
  { unfold panels_stage in E6.
    destruct (copies p), (range (cols p)), (range (rows p)); congruence. }
  reflexivity.
Qed.

Lemma generate_structure_run (meshes : list primitive) (all_nodes : list point) :
  generate_structure M p = Ok (meshes, all_nodes) ->
  exists model, run_structure M p = Ok (meshes, all_nodes, model).
Proof.
  unfold generate_structure. destruct (run_structure M p) as [[[ms ns] md]|]; simpl;
    [|discriminate].
  intros H. injection H as <- <-. now exists md.
Qed.

End Stages.

(** ** C6: the number of panels *)

(** C6.  For a valid parameter set the panel stage does not fail and
    appends exactly [rows * cols * copies_in_x * copies_in_y] meshes, all
    of them panels; and the mesh list that a completed call returns holds
    exactly that many panels. *)
Theorem panel_count (M : MathModule) (p : Params) :
  valid p ->
  panels_stage M p = Ok (panel_meshes M p) /\
  List.Forall (fun prim => is_panel prim = true) (panel_meshes M p) /\
  Z.of_nat (length (panel_meshes M p))
  = (rows p * cols p * copies_in_x p * copies_in_y p)%Z /\
  forall meshes all_nodes,
    generate_structure M p = Ok (meshes, all_nodes) ->
    Z.of_nat (length (List.filter is_panel meshes))
    = (rows p * cols p * copies_in_x p * copies_in_y p)%Z.
Proof.
  intros V.
  assert (Hlen : Z.of_nat (length (panel_meshes M p))
                 = (rows p * cols p * copies_in_x p * copies_in_y p)%Z).
  { rewrite length_panel_meshes, length_copies.
    destruct V. rewrite !Nat2Z.inj_mul, !Z2Nat.id by lia. ring. }
  split; [|split; [apply panel_meshes_all_panel|split; [exact Hlen|]]].
  - unfold panels_stage.
    destruct (range_nonempty (rows p) (valid_rows p V)) as (r & rl & ->).
    now destruct (copies p), (range (cols p)).
  - intros meshes all_nodes Hg.
    destruct (generate_structure_run M p _ _ Hg) as (model & Hr).
    destruct (run_structure_meshes M p _ _ _ Hr) as (cc & _ & _ & ->).
    rewrite !List.filter_app.
    rewrite (filter_none _ _ (column_meshes_not_panel M p)).
    rewrite (filter_none _ _ (rafter_meshes_not_panel M p)).
    rewrite (filter_none _ _ (purlin_meshes_not_panel M p)).
    rewrite (filter_none _ _ (node_trace_not_panel all_nodes)).
    rewrite (filter_all _ _ (panel_meshes_all_panel M p)).
    simpl. rewrite app_nil_r. exact Hlen.
Qed.

Lemma valid_two_copies : valid two_copies.
Proof. constructor; vm_compute; intuition congruence. Qed.

Lemma panel_count_witness :
  exists meshes all_nodes,
    generate_structure level_math two_copies = Ok (meshes, all_nodes) /\
    Z.of_nat (length (List.filter is_panel meshes)) = 12%Z.
Proof.
  pose (out := value_or ([], []) (generate_structure level_math two_copies)).
  assert (E : generate_structure level_math two_copies = Ok (fst out, snd out)).
  { refine (ok_pair _ _ _ _ _); vm_compute; reflexivity. }
  exists (fst out), (snd out). split; [exact E|].
  exact (proj2 (proj2 (proj2 (panel_count level_math two_copies valid_two_copies)))
           (fst out) (snd out) E).
Defined.

(** ** C10: the point cloud *)

Lemma markers_scatter (pts : list point) (size : Z) (color name : string) :
  markers (Scatter3d (List.map px pts) (List.map py pts) (List.map pz pts)
                     size color name) = pts.
Proof.
  simpl. induction pts as [|[[x y] z] pts IH]; simpl; [reflexivity|].
  now rewrite IH.
Qed.

(** C10.  [create_nodes_plotly] returns [None] on the empty list and the
    pipeline then appends nothing; on a non-empty list it returns one
    point cloud whose markers are the input points, one per point and in
    input order; a completed call returns the component meshes, none of
    them a point cloud, followed by exactly that. *)
Theorem point_cloud (M : MathModule) (p : Params) :
  create_nodes_plotly [] = None /\
  node_trace [] = [] /\
  (forall pts, pts <> [] ->
     exists prim,
       create_nodes_plotly pts = Some prim /\ node_trace pts = [prim] /\
       is_scatter prim = true /\ markers prim = pts /\
       length (markers prim) = length pts) /\
  (forall meshes all_nodes,
     generate_structure M p = Ok (meshes, all_nodes) ->
     exists components,
       List.Forall (fun prim => is_scatter prim = false) components /\
       meshes = (components ++ node_trace all_nodes)%list).
Proof.
  split; [reflexivity|]. split; [reflexivity|]. split.
  - intros [|pt pts] Hne; [congruence|].
    eexists. split; [reflexivity|]. split; [reflexivity|]. split; [reflexivity|].
    rewrite markers_scatter. now split.
  - intros meshes all_nodes Hg.
    destruct (generate_structure_run M p _ _ Hg) as (model & Hr).
    destruct (run_structure_meshes M p _ _ _ Hr) as (cc & _ & _ & ->).
    exists (column_meshes M p ++ rafter_meshes M p ++ panel_meshes M p
            ++ purlin_meshes M p)%list.
    split; [|now rewrite <- !app_assoc].
    repeat (apply Forall_app; split).
    + unfold column_meshes, columns_of_copy.
      repeat (apply Forall_flat_map_intro; intros ?). repeat constructor.
    + unfold rafter_meshes, rafters_of_copy.
      apply Forall_flat_map_intro; intros ?. apply Forall_map_intro; intros ?.
      reflexivity.
    + unfold panel_meshes, panels_of_copy.
      repeat (apply Forall_flat_map_intro; intros ?).
      apply Forall_map_intro; intros ?. reflexivity.
    + unfold purlin_meshes, purlins_of_row.
      repeat (apply Forall_flat_map_intro; intros ?). repeat constructor.
Qed.

Lemma point_cloud_witness :
  (exists prim, create_nodes_plotly [(1, 2, 3)] = Some prim /\ markers prim = [(1, 2, 3)])
  /\ generate_structure level_math nothing = Ok ([], [])
  /\ exists components,
       List.Forall (fun prim => is_scatter prim = false) components /\
       [] = (components ++ node_trace [])%list.
Proof.
  destruct (point_cloud level_math nothing) as (_ & _ & Hsome & Hrun).
  split; [|split].
  - destruct (Hsome [(1, 2, 3)]) as (prim & H1 & _ & _ & H2 & _); [discriminate|].
    now exists prim.
  - reflexivity.
  - apply Hrun. reflexivity.
Defined.

(** ** C9: ground blocks *)

Lemma Pairs_app {A : Type} (R : A -> A -> Prop) (l1 l2 : list A) :
  Pairs R l1 -> Pairs R l2 -> Pairs R (l1 ++ l2)%list.
Proof. induction 1; simpl; [trivial|]. intros H2. constructor; auto. Qed.

Lemma Pairs_flat_map {A B : Type} (R : B -> B -> Prop) (f : A -> list B) (l : list A) :
  (forall a, Pairs R (f a)) -> Pairs R (flat_map f l).
Proof.
  intros Hf. induction l as [|a l IH]; simpl; [constructor|].
  now apply Pairs_app.
Qed.

Lemma block_under_column (M : MathModule) (p : Params) (i j y_i x_i : Z) :
  block_on_column p (column_mesh M p i j y_i x_i) (block_mesh M p i j y_i x_i).
Proof.
  unfold block_on_column, column_mesh, block_mesh, create_c_section_cq,
    create_component_cq.
  do 2 eexists. split; [reflexivity|]. split; [reflexivity|]. simpl.
  repeat split; reflexivity.
Qed.

(** C9.  For every array copy and every grid position the column stage
    appends the column and then its block; the meshes named "Block" are
    these and no others, one per copy and position, and a completed call
    returns them all.  The block has the column's centre in plan and is an
    unrotated box of height [blk_heigth] centred at z = -blk_heigth/2.  So
    its top face is at z = 0, and for a positive height all of it, from
    z = -blk_heigth up, is at or below ground. *)
Theorem blocks_below_ground (M : MathModule) (p : Params) :
  Pairs (block_on_column p) (column_meshes M p) /\
  (forall i j y_i x_i,
     (0 <= i < copies_in_x p)%Z -> (0 <= j < copies_in_y p)%Z ->
     (0 <= y_i < y_cols p)%Z -> (0 <= x_i < x_cols p)%Z ->
     In (column_mesh M p i j y_i x_i) (column_meshes M p) /\
     In (block_mesh M p i j y_i x_i) (column_meshes M p) /\
     block_on_column p (column_mesh M p i j y_i x_i) (block_mesh M p i j y_i x_i) /\
     center_of (block_mesh M p i j y_i x_i)
     = Some (column_cx p x_i + x_gap p * inject_Z i,
             column_cy M p y_i + y_gap p * inject_Z j,
             - (blk_heigth p / 2)) /\
     forall meshes all_nodes,
       generate_structure M p = Ok (meshes, all_nodes) ->
       In (block_mesh M p i j y_i x_i) meshes) /\
  (forall blk,
     In blk (column_meshes M p) -> mesh_named "Block" blk = true ->
     exists i j y_i x_i,
       (0 <= i < copies_in_x p)%Z /\ (0 <= j < copies_in_y p)%Z /\
       (0 <= y_i < y_cols p)%Z /\ (0 <= x_i < x_cols p)%Z /\
       blk = block_mesh M p i j y_i x_i) /\
  length (List.filter (mesh_named "Block") (column_meshes M p))
  = (Z.to_nat (copies_in_x p) * Z.to_nat (copies_in_y p)
     * (Z.to_nat (y_cols p) * Z.to_nat (x_cols p)))%nat /\
  forall b col,
    block_on_column p col (Mesh3d b) ->
    top_face b == 0 /\ bottom_face b == - blk_heigth p /\
    (0 < blk_heigth p ->
     bottom_face b < 0 /\
     forall z, bottom_face b <= z -> z <= top_face b -> z <= 0).
Proof.
  assert (Hin : forall i j y_i x_i,
             (0 <= i < copies_in_x p)%Z -> (0 <= j < copies_in_y p)%Z ->
             (0 <= y_i < y_cols p)%Z -> (0 <= x_i < x_cols p)%Z ->
             In (column_mesh M p i j y_i x_i) (column_meshes M p) /\
             In (block_mesh M p i j y_i x_i) (column_meshes M p)).
  { intros i j y_i x_i Hi Hj Hy Hx. unfold column_meshes.
    split; apply in_flat_map; exists (i, j);
      (split; [now apply in_copies|]);
      unfold columns_of_copy; apply in_flat_map; exists y_i;
      (split; [now apply in_range|]);
      apply in_flat_map; exists x_i;
      (split; [now apply in_range|]); cbn [fst snd In]; auto. }
  split; [|split; [|split; [|split]]].
  - unfold column_meshes. apply Pairs_flat_map. intros ij.
    unfold columns_of_copy. apply Pairs_flat_map. intros y_i.
    apply Pairs_flat_map. intros x_i.
    constructor; [apply block_under_column|constructor].
  - intros i j y_i x_i Hi Hj Hy Hx.
    destruct (Hin i j y_i x_i Hi Hj Hy Hx) as [Hc Hb].
    split; [exact Hc|]. split; [exact Hb|].
    split; [apply block_under_column|]. split; [reflexivity|].
    intros meshes all_nodes Hrun.
    apply generate_structure_run in Hrun as (model & Hrun).
    apply run_structure_meshes in Hrun as (cc & _ & _ & ->).
    apply in_or_app. now left.
  - intros blk Hblk Hname. unfold column_meshes in Hblk.
    apply in_flat_map in Hblk as ([i j] & Hij & Hblk).
    unfold columns_of_copy in Hblk.
    apply in_flat_map in Hblk as (y_i & Hy & Hblk).
    apply in_flat_map in Hblk as (x_i & Hx & Hblk).
    cbn [fst snd] in Hblk. destruct Hblk as [<-|[<-|[]]]; [discriminate|].
    exists i, j, y_i, x_i. apply in_copies in Hij as [Hi Hj].
    apply in_range in Hy, Hx. auto.
  - unfold column_meshes.
    rewrite (length_filter_flat_map _ _ (Z.to_nat (y_cols p) * Z.to_nat (x_cols p))).
    + now rewrite length_copies.
    + intros ij. unfold columns_of_copy.
      rewrite (length_filter_flat_map _ _ (Z.to_nat (x_cols p))).
      * now rewrite length_range.
      * intros y_i. rewrite (length_filter_flat_map _ _ 1).
        -- rewrite length_range. lia.
        -- intros x_i. reflexivity.
  - intros b col (c & b' & _ & Hb & _ & _ & _ & _ & Hh & _ & _ & Hz).
    injection Hb as <-.
    unfold top_face, bottom_face. rewrite Hz, Hh.
    assert (Ht : - (blk_heigth p / 2) + blk_heigth p / 2 == 0) by field.
    assert (Hb : - (blk_heigth p / 2) - blk_heigth p / 2 == - blk_heigth p) by field.
    split; [exact Ht|]. split; [exact Hb|].
    intros Hpos. split.
    + rewrite Hb. lra.
    + intros z _ Hz2. rewrite Ht in Hz2. exact Hz2.
Qed.

Lemma blocks_below_ground_witness :
  In (block_mesh level_math two_copies 1 0 1 1) (column_meshes level_math two_copies) /\
  length (List.filter (mesh_named "Block") (column_meshes level_math two_copies)) = 8%nat /\
  exists b,
    block_mesh level_math two_copies 1 0 1 1 = Mesh3d b /\
    top_face b == 0 /\ bottom_face b == - (1) /\ bottom_face b < 0.
Proof.
  destruct (blocks_below_ground level_math two_copies) as (_ & Hall & _ & Hcount & H).
  destruct (Hall 1 0 1 1)%Z as (_ & Hin & Hon & _);
    try (vm_compute; split; [discriminate|reflexivity]).
  split; [exact Hin|]. split; [exact Hcount|].
  eexists. split; [reflexivity|].
  destruct (H _ _ Hon) as (Ht & Hb & Hpos).
  split; [exact Ht|]. split; [exact Hb|].
  apply Hpos. reflexivity.
Defined.

(** ** C7: a single support column along the width *)

Lemma div_x_positive (p : Params) : (1 <= div_x p)%Z.
Proof. unfold div_x. lia. Qed.

Lemma div_y_positive (p : Params) : (1 <= div_y p)%Z.
Proof. unfold div_y. lia. Qed.

(** C7.  With [x_cols = 1] the column and the rafter take the centred
    position [total_width / 2]: it is the x of every column and rafter
    mesh before the array-copy offset, so of the meshes of copy 0, and of
    every entry of [rafter_x_nodes].  The two spacing formulas divide by
    [max(1, count - 1)], which is at least 1 for every parameter set. *)
Theorem single_column_centred (M : MathModule) (p : Params) :
  x_cols p = 1%Z ->
  (forall x_i, column_cx p x_i = total_width p / 2) /\
  (forall x_i, rafter_rx p x_i = total_width p / 2) /\
  (forall i j y_i x_i c,
     center_of (column_mesh M p i j y_i x_i) = Some c ->
     px c = total_width p / 2 + x_gap p * inject_Z i) /\
  (forall i j x_i c,
     center_of (rafter_mesh M p i j x_i) = Some c ->
     px c = total_width p / 2 + x_gap p * inject_Z i) /\
  (forall j y_i x_i c,
     center_of (column_mesh M p 0 j y_i x_i) = Some c -> px c == total_width p / 2) /\
  (forall j x_i c,
     center_of (rafter_mesh M p 0 j x_i) = Some c -> px c == total_width p / 2) /\
  List.Forall (fun x => x = total_width p / 2) (rafter_x_nodes p) /\
  (1 <= div_x p)%Z /\ (1 <= div_y p)%Z /\
  x_spacing p = total_width p / inject_Z (div_x p) /\
  y_spacing_ground M p
  = (total_ground_length M p
     - (front_offset p + rear_offset p) * cos M (angle_rad M p)) / inject_Z (div_y p).
Proof.
  intros Hx.
  assert (Hcx : forall x_i, column_cx p x_i = total_width p / 2).
  { intros x_i. unfold column_cx. now rewrite Hx. }
  assert (Hrx : forall x_i, rafter_rx p x_i = total_width p / 2).
  { intros x_i. unfold rafter_rx. now rewrite Hx. }
  split; [exact Hcx|]. split; [exact Hrx|].
  split; [|split; [|split; [|split; [|split; [|split; [|split; [|split]]]]]]].
  - intros i j y_i x_i c H. injection H as <-. simpl. now rewrite Hcx.
  - intros i j x_i c H. injection H as <-. simpl. now rewrite Hrx.
  - intros j y_i x_i c H. injection H as <-. simpl. rewrite Hcx.
    unfold px; simpl. ring.
  - intros j x_i c H. injection H as <-. simpl. rewrite Hrx.
    unfold px; simpl. ring.
  - unfold rafter_x_nodes. apply Forall_flat_map_intro. intros _.
    apply Forall_map_intro. exact Hrx.
  - apply div_x_positive.
  - apply div_y_positive.
  - unfold x_spacing. pose proof (div_x_positive p) as H.
    destruct (Z.ltb_spec 0 (div_x p)); [reflexivity|lia].
  - reflexivity.
Qed.

Lemma single_column_centred_witness :
  column_cx single_x_col 0 = total_width single_x_col / 2 /\
  Qred (total_width single_x_col / 2) = 33 # 25 /\
  List.map Qred (rafter_x_nodes single_x_col) = [33 # 25; 33 # 25].
Proof.
  destruct (single_column_centred level_math single_x_col) as (H & _);
    [reflexivity|].
  split; [apply H|]. split; reflexivity.
Defined.

(** ** C3: the array-copy offset *)

(** Columns, blocks, rafters and panels of copy [(i, j)] sit at the
    position of copy [(0, 0)] plus [i * x_gap] and [j * y_gap]. *)
Lemma copy_offset_applied (M : MathModule) (p : Params) (i j : Z)
    (mesh : Z -> Z -> primitive) :
  (exists y_i x_i, mesh = fun i j => column_mesh M p i j y_i x_i) \/
  (exists y_i x_i, mesh = fun i j => block_mesh M p i j y_i x_i) \/
  (exists x_i, mesh = fun i j => rafter_mesh M p i j x_i) \/
  (exists c r, mesh = fun i j => panel_mesh M p i j c r) ->
  exists c0 c,
    center_of (mesh 0%Z 0%Z) = Some c0 /\ center_of (mesh i j) = Some c /\
    px c == px c0 + inject_Z i * x_gap p /\
    py c == py c0 + inject_Z j * y_gap p /\
    pz c = pz c0.
Proof.
  intros [(y_i & x_i & ->)|[(y_i & x_i & ->)|[(x_i & ->)|(c & r & ->)]]];
    do 2 eexists; (split; [reflexivity|]); (split; [reflexivity|]);
    unfold px, py, pz; simpl; (split; [ring|]); (split; [ring|]); reflexivity.
Qed.

(** Every purlin mesh has the same centre x, whatever the array copy. *)
Lemma purlins_not_offset (M : MathModule) (p : Params) (prim : primitive) (c : point) :
  In prim (purlin_meshes M p) -> center_of prim = Some c -> px c = purlin_cx p.
Proof.
  unfold purlin_meshes. intros Hin Hc.
  apply in_flat_map in Hin as (ij & _ & Hin).
  apply in_flat_map in Hin as (row & _ & Hin).
  destruct Hin as [<-|[<-|[]]]; injection Hc as <-; reflexivity.
Qed.

(** C3.  With [copies_in_x = 2] and [x_gap = 20] the call completes; the
    columns, blocks and rafters of the second copy have the centre x of
    the first copy plus 20, but the four purlins of the second copy have
    the centre x of the first copy, 1.52, not 21.52. *)
Theorem purlin_copies_coincide :
  exists meshes all_nodes,
    generate_structure level_math two_copies = Ok (meshes, all_nodes) /\
    centres_x "Column" meshes
    = [1 # 20; 269 # 100; 1 # 20; 269 # 100; 401 # 20; 2269 # 100; 401 # 20; 2269 # 100] /\
    centres_x "Block" meshes
    = [1 # 20; 269 # 100; 1 # 20; 269 # 100; 401 # 20; 2269 # 100; 401 # 20; 2269 # 100] /\
    centres_x "Rafter" meshes = [1 # 5; 71 # 25; 101 # 5; 571 # 25] /\
    centres_x "Purlin" meshes
    = [38 # 25; 38 # 25; 38 # 25; 38 # 25; 38 # 25; 38 # 25; 38 # 25; 38 # 25].
Proof.
  pose (out := value_or ([], []) (generate_structure level_math two_copies)).
  exists (fst out), (snd out). split.
  - refine (ok_pair _ _ _ _ _); vm_compute; reflexivity.
  - repeat split; vm_compute; reflexivity.
Qed.

(** ** C5: the order of a purlin chain *)

Lemma insert_by_x_perm (pt : point) (l : list point) :
  Permutation (insert_by_x pt l) (pt :: l).
Proof.
  induction l as [|h t IH]; simpl; [reflexivity|].
  destruct (Qle_bool (px pt) (px h)); [reflexivity|].
  rewrite IH. apply perm_swap.
Qed.

Lemma sort_by_x_perm (l : list point) : Permutation (sort_by_x l) l.
Proof.
  induction l as [|h t IH]; simpl; [reflexivity|].
  rewrite insert_by_x_perm. now constructor.
Qed.

Lemma insert_by_x_sorted (pt : point) (l : list point) :
  StronglySorted x_le l -> StronglySorted x_le (insert_by_x pt l).
Proof.
  induction 1 as [|h t Ht IH Hh]; simpl; [repeat constructor|].
  destruct (Qle_bool (px pt) (px h)) eqn:E.
  - apply Qle_bool_iff in E. constructor; [now constructor|].
    constructor; [exact E|].
    eapply List.Forall_impl; [|exact Hh]. intros a Ha. unfold x_le in *. lra.
  - assert (Hlt : px h <= px pt).
    { destruct (Qlt_le_dec (px h) (px pt)) as [Hl|Hl]; [lra|].
      apply Qle_bool_iff in Hl. congruence. }
    constructor; [exact IH|].
    apply (Permutation_Forall (Permutation_sym (insert_by_x_perm pt t))).
    now constructor.
Qed.

(** The crossings between the two ends are in ascending x. *)
Lemma sort_by_x_sorted (l : list point) : StronglySorted x_le (sort_by_x l).
Proof.
  induction l as [|h t IH]; simpl; [constructor|]. now apply insert_by_x_sorted.
Qed.

(** C5.  With the panels overhanging by 0.5 and the purlins by 0.2, the
    first purlin is chained from its left end at x = 0.3 back to the panel
    edge at x = 0 and then on to x = 0.5: the chain is not ascending in x,
    and its first member, which the completed call leaves in the model,
    runs from x = 0.3 to x = 0. *)
Theorem purlin_chain_descends :
  exists pts st names meshes all_nodes model,
    purlin_points level_math wide_panels 0 0 = Ok pts /\
    List.map (fun pt => Qred (px pt)) pts
    = [3 # 10; 0; 0; 1 # 2; 1 # 2; 51 # 50; 51 # 50; 203 # 100; 203 # 100;
       127 # 50; 127 # 50; 137 # 50] /\
    build_purlin (raf_pur_inter_points level_math wide_panels)
                 (pur_points level_math wide_panels)
                 (pur_pan_inter_points level_math wide_panels)
                 (angle wide_panels + 90) (empty_model, None) (0%nat, 0%nat)
    = Ok (st, Some names) /\
    names = ["N_0.300_0.300_2.225"; "N_0.000_0.300_2.225"; "N_0.500_0.300_2.225";
             "N_1.020_0.300_2.225"; "N_2.030_0.300_2.225"; "N_2.540_0.300_2.225";
             "N_2.740_0.300_2.225"] /\
    List.map (fun name => option_map (fun pt => Qred (px pt)) (nodes st !! name)) names
    = [Some (3 # 10); Some 0; Some (1 # 2); Some (51 # 50); Some (203 # 100);
       Some (127 # 50); Some (137 # 50)] /\
    run_structure level_math wide_panels = Ok (meshes, all_nodes, model) /\
    option_map (fun mem => (i_node mem, j_node mem, material_name mem))
      (members model !! "M_N_0.300_0.300_2.225_N_0.000_0.300_2.225")
    = Some ("N_0.300_0.300_2.225", "N_0.000_0.300_2.225", "purlin_mat").
Proof.
  pose (pts := value_or [] (purlin_points level_math wide_panels 0 0)).
  pose (b := value_or (empty_model, None)
               (build_purlin (raf_pur_inter_points level_math wide_panels)
                  (pur_points level_math wide_panels)
                  (pur_pan_inter_points level_math wide_panels)
                  (angle wide_panels + 90) (empty_model, None) (0%nat, 0%nat))).
  pose (r := value_or ([], [], empty_model) (run_structure level_math wide_panels)).
  exists pts, (fst b), (default [] (snd b)), (fst (fst r)), (snd (fst r)), (snd r).
  split; [refine (ok_value _ _ _); vm_compute; reflexivity|].
  split; [vm_compute; reflexivity|].
  split; [refine (ok_pair _ _ _ _ _); vm_compute; reflexivity|].
  split; [vm_compute; reflexivity|].
  split; [vm_compute; reflexivity|].
  split; [refine (ok_triple _ _ _); vm_compute; reflexivity|].
  vm_compute; reflexivity.
Qed.

(** ** C2: node names *)

(** The name is a function of the rounded coordinates and of their signs. *)
Lemma node_name_rounded (a b : point) :
  round3 (px a) = round3 (px b) -> Qle_bool 0 (px a) = Qle_bool 0 (px b) ->
  round3 (py a) = round3 (py b) -> Qle_bool 0 (py a) = Qle_bool 0 (py b) ->
  round3 (pz a) = round3 (pz b) -> Qle_bool 0 (pz a) = Qle_bool 0 (pz b) ->
  node_name a = node_name b.
Proof.
  intros H1 H2 H3 H4 H5 H6. unfold node_name, fmt3.
  now rewrite H1, H2, H3, H4, H5, H6.
Qed.

(** A negative coordinate that rounds to zero keeps its sign in the
    name: the purlin end at x = -0.0001 and the panel edge at x = 0 round
    to the same coordinates and become the first two nodes of the chain. *)
Lemma negative_zero_splits_node :
  round3 (-1 # 10000) = round3 0 /\
  node_name (-1 # 10000, 3 # 10, 2225 # 1000) = "N_-0.000_0.300_2.225" /\
  node_name (0, 3 # 10, 2225 # 1000) = "N_0.000_0.300_2.225" /\
  exists pts,
    purlin_points level_math long_purlins 0 0 = Ok pts /\
    List.map (fun pt => Qred (px pt)) (firstn 2 pts) = [-1 # 10000; 0] /\
    firstn 2 (snd (add_purlin_nodes empty_model pts []))
    = ["N_-0.000_0.300_2.225"; "N_0.000_0.300_2.225"].
Proof.
  split; [reflexivity|]. split; [reflexivity|]. split; [reflexivity|].
  exists (value_or [] (purlin_points level_math long_purlins 0 0)).
  split; [refine (ok_value _ _ _); vm_compute; reflexivity|].
  split; vm_compute; reflexivity.
Qed.

(** The collision alone makes the call fail: with two array copies the
    call completes when the columns are set 0.4 in, and raises when they
    are set 0.3 in, on the first purlin line. *)
Lemma soffit_collision_alone :
  is_ok (generate_structure level_math two_copies) = true /\
  generate_structure level_math (dashboard (3 # 10) (3 # 10) (2 # 10) (2 # 10) 2 1 2 2)
  = Raise node_exists.
Proof. split; vm_compute; reflexivity. Qed.

(** C2.  With the dashboard's defaults the soffit point of the first
    column and the crossing of the first rafter with the first purlin are
    the same point (0.2, 0.3, 2.225), and both get the name
    N_0.200_0.300_2.225.  The purlin loop registers the crossing; the
    rafter loop then adds the soffit point with an unguarded [add_node],
    which raises: the node is not reused and the call fails. *)
Theorem soffit_node_not_reused :
  exists st cc crossing ground soffit,
    purlins_built level_math defaults = Ok st /\
    nth_error (up_per_raf_points level_math defaults 0) 0 = Some crossing /\
    column_coords level_math defaults = Ok cc /\
    nth_error cc 0 = Some [ground; soffit] /\
    px soffit == px crossing /\ py soffit == py crossing /\ pz soffit == pz crossing /\
    node_name crossing = "N_0.200_0.300_2.225" /\
    node_name soffit = "N_0.200_0.300_2.225" /\
    is_registered (fst st) "N_0.200_0.300_2.225" = true /\
    add_column_nodes cc (fst st) 0 (y_cols defaults) = Raise node_exists /\
    generate_structure level_math defaults = Raise node_exists.
Proof.
  pose (st := value_or (empty_model, None) (purlins_built level_math defaults)).
  pose (cc := value_or [] (column_coords level_math defaults)).
  exists st, cc, (nth 0 (up_per_raf_points level_math defaults 0) (0, 0, 0)),
    (nth 0 (nth 0 cc []) (0, 0, 0)), (nth 1 (nth 0 cc []) (0, 0, 0)).
  split; [refine (ok_value _ _ _); vm_compute; reflexivity|].
  split; [vm_compute; reflexivity|].
  split; [refine (ok_value _ _ _); vm_compute; reflexivity|].
  split; [vm_compute; reflexivity|].
  split; [vm_compute; reflexivity|].
  split; [vm_compute; reflexivity|].
  split; [vm_compute; reflexivity|].
  split; [vm_compute; reflexivity|].
  split; [vm_compute; reflexivity|].
  split; [vm_compute; reflexivity|].
  split; vm_compute; reflexivity.
Qed.

(** ** C4: duplicate points and short chains *)

Lemma add_node_ok (model model' : FEModel3D) (name : string) (pt : point) :
  add_node model name pt = Ok model' ->
  nodes model !! name = None /\
  nodes model' = <[name := pt]> (nodes model) /\
  members model' = members model.
Proof.
  unfold add_node. destruct (nodes model !! name) eqn:E; [discriminate|].
  intros H. injection H as <-. auto.
Qed.

Lemma add_node_taken (model : FEModel3D) (name : string) (pt : point) :
  is_Some (nodes model !! name) -> add_node model name pt = Raise node_exists.
Proof. intros [x Hx]. unfold add_node. now rewrite Hx. Qed.

(** The node loop of a purlin keeps its names distinct and registered,
    keeps every registered node, and leaves the members alone. *)
Lemma add_purlin_nodes_spec (pts : list point) :
  forall (model : FEModel3D) (acc : list string),
    NoDup acc ->
    (forall n, n ∈ acc -> is_Some (nodes model !! n)) ->
    NoDup (snd (add_purlin_nodes model pts acc)) /\
    (forall n, n ∈ snd (add_purlin_nodes model pts acc) ->
               is_Some (nodes (fst (add_purlin_nodes model pts acc)) !! n)) /\
    (forall n, is_Some (nodes model !! n) ->
               is_Some (nodes (fst (add_purlin_nodes model pts acc)) !! n)) /\
    members (fst (add_purlin_nodes model pts acc)) = members model.
Proof.
  induction pts as [|pt rest IH]; intros model acc Hnd Hreg; simpl.
  - auto.
  - destruct (add_node model (node_name pt) pt) as [model'|e] eqn:E.
    + apply add_node_ok in E as (Hfresh & Hnodes & Hmem).
      assert (Hkeep : forall n, is_Some (nodes model !! n) ->
                                is_Some (nodes model' !! n)).
      { intros n Hn. rewrite Hnodes. apply lookup_insert_is_Some'. now right. }
      destruct (IH model' (acc ++ [node_name pt])%list) as (H1 & H2 & H3 & H4).
      * apply NoDup_app. split; [exact Hnd|]. split; [|apply NoDup_singleton].
        intros n Hn Hn'. apply list_elem_of_singleton in Hn'. subst n.
        apply Hreg in Hn. rewrite Hfresh in Hn. now destruct Hn.
      * intros n Hn. apply elem_of_app in Hn as [Hn|Hn]; [now apply Hkeep, Hreg|].
        apply list_elem_of_singleton in Hn. subst n.
        rewrite Hnodes. apply lookup_insert_is_Some'. now left.
      * split; [exact H1|]. split; [exact H2|]. split; [|congruence].
        intros n Hn. now apply H3, Hkeep.
    + now apply IH.
Qed.

Lemma add_purlin_nodes_distinct (model : FEModel3D) (pts : list point) :
  NoDup (snd (add_purlin_nodes model pts [])).
Proof.
  apply (add_purlin_nodes_spec pts model []); [constructor|].
  intros n Hn. inversion Hn.
Qed.

Lemma NoDup_adjacent {A : Type} (l1 l2 : list A) (a b : A) :
  NoDup (l1 ++ a :: b :: l2)%list -> a <> b.
Proof.
  intros H ->. apply NoDup_app in H as (_ & _ & H).
  inversion H as [|? ? Hnot _]. apply Hnot. constructor.
Qed.

(** C4, as the code has it.  In the node loop of a purlin a point whose
    name is registered is passed over: [add_node] raises and the error is
    discarded, leaving model and chain as they were.  The names the chain
    retains are pairwise distinct, so no two neighbours of the chain, the
    endpoints of a member, are the same node.  A chain of fewer than two
    names adds no member and raises nothing: the model is returned as it
    is and the build goes on. *)
Theorem duplicates_dropped_short_chains_pass (model : FEModel3D) (pts : list point)
    (material section : string) (rot : Q) :
  (forall pt rest acc,
     is_Some (nodes model !! node_name pt) ->
     add_purlin_nodes model (pt :: rest) acc = add_purlin_nodes model rest acc) /\
  NoDup (snd (add_purlin_nodes model pts [])) /\
  (forall l1 a b l2,
     snd (add_purlin_nodes model pts []) = (l1 ++ a :: b :: l2)%list -> a <> b) /\
  (forall names,
     (length names < 2)%nat ->
     add_member_chain model names material section rot = Ok model).
Proof.
  split; [|split; [|split]].
  - intros pt rest acc Hreg. simpl. now rewrite (add_node_taken _ _ _ Hreg).
  - apply add_purlin_nodes_distinct.
  - intros l1 a b l2 E. apply (NoDup_adjacent l1 l2).
    rewrite <- E. apply add_purlin_nodes_distinct.
  - intros [|a [|b names]] Hlen; simpl in *; [reflexivity|reflexivity|lia].
Qed.

Lemma duplicates_dropped_short_chains_pass_witness :
  snd (add_purlin_nodes empty_model [(0, 0, 0); (0, 0, 0)] []) = ["N_0.000_0.000_0.000"]
  /\ add_member_chain empty_model ["N_0.000_0.000_0.000"] "purlin_mat" "purlin_sec" 90
     = Ok empty_model.
Proof.
  split; [reflexivity|].
  apply (duplicates_dropped_short_chains_pass empty_model [] "purlin_mat" "purlin_sec" 90).
  simpl. lia.
Defined.

(** The claim of C4 fails on the code: with two array copies every point
    of the last purlin is registered already, its chain retains no name at
    all, no member is added for it, and the call completes. *)
Lemma empty_chain_is_absorbed :
  exists st out,
    purlins_built level_math two_copies = Ok (st, Some []) /\
    generate_structure level_math two_copies = Ok out.
Proof.
  pose (st := value_or (empty_model, None : option (list string))
                (purlins_built level_math two_copies)).
  exists (fst st), (value_or ([], []) (generate_structure level_math two_copies)).
  split.
  - refine (ok_pair _ _ _ _ _); vm_compute; reflexivity.
  - refine (ok_value _ _ _); vm_compute; reflexivity.
Qed.

(** ** C8: column segments *)

Lemma index_ok {A : Type} (xs : list A) (i : nat) (x : A) :
  index xs i = Ok x -> nth_error xs i = Some x.
Proof. unfold index. destruct (nth_error xs i); [congruence|discriminate]. Qed.

Lemma last_of_range (n : Z) (row : Z) (l : list Z) :
  rev (range n) = row :: l -> row = (n - 1)%Z.
Proof.
  unfold range. destruct (Z.to_nat n) as [|k] eqn:E; [discriminate|].
  rewrite seq_S, map_app, rev_app_distr. simpl. intros H. injection H as <- _. lia.
Qed.

(** C8.  No column member is ever added.  In the completed call with
    two array copies [column_coords] holds sixteen ground-to-soffit
    segments, all at the rafter positions x = 0.2 and x = 2.84 of the
    first copy, although the eight columns stand at x = 0.05, 2.69, 20.05
    and 22.69.  The rafter loop makes nodes of the two segments it reads,
    [column_coords[0]] and [column_coords[1]], both under the first
    rafter; the ends of the segments at x = 2.84 are not nodes at all.  No
    member joins the ground to the soffit of any segment: the model's
    twenty members are all purlin members. *)
Theorem column_member_missing :
  exists meshes all_nodes model cc,
    run_structure level_math two_copies = Ok (meshes, all_nodes, model) /\
    column_coords level_math two_copies = Ok cc /\
    (let per_copy :=
       [["N_0.200_0.400_0.000"; "N_0.200_0.400_2.225"];
        ["N_0.200_3.020_0.000"; "N_0.200_3.020_2.225"];
        ["N_2.840_0.400_0.000"; "N_2.840_0.400_2.225"];
        ["N_2.840_3.020_0.000"; "N_2.840_3.020_2.225"]] in
     List.map (List.map node_name) cc
     = (per_copy ++ per_copy ++ per_copy ++ per_copy)%list) /\
    centres_x "Column" meshes
    = [1 # 20; 269 # 100; 1 # 20; 269 # 100; 401 # 20; 2269 # 100; 401 # 20; 2269 # 100] /\
    List.map (fun seg => forallb (fun pt => is_registered model (node_name pt)) seg)
             (firstn 4 cc)
    = [true; true; false; false] /\
    is_registered model "N_2.840_0.400_0.000" = false /\
    is_registered model "N_2.840_0.400_2.225" = false /\
    forallb (fun seg =>
               match seg with
               | [ground; soffit] =>
                   negb (member_between model (node_name ground) (node_name soffit))
               | _ => false
               end) cc = true /\
    length (map_to_list (members model)) = 20%nat /\
    length (members_of_material model "purlin_mat") = 20%nat.
Proof.
  pose (r := value_or ([], [], empty_model) (run_structure level_math two_copies)).
  pose (cc := value_or [] (column_coords level_math two_copies)).
  exists (fst (fst r)), (snd (fst r)), (snd r), cc.
  split; [refine (ok_triple _ _ _); vm_compute; reflexivity|].
  split; [refine (ok_value _ _ _); vm_compute; reflexivity|].
  split; [vm_compute; reflexivity|].
  split; [vm_compute; reflexivity|].
  split; [vm_compute; reflexivity|].
  split; [vm_compute; reflexivity|].
  split; [vm_compute; reflexivity|].
  split; [vm_compute; reflexivity|].
  split; vm_compute; reflexivity.
Qed.

(** ** C1: the rafter chain *)

(** C1.  With one array copy the purlin loop leaves in [node_names] the
    six names of the last purlin, at y = 3.12.  The loop of the first
    rafter gathers the rafter's own six names, at x = 0.2, and does not
    read them: it chains [node_names], asks for the member between the
    first two nodes of that purlin, which the purlin loop has added, and
    the call fails.  With two array copies [node_names] is left empty, the
    rafter's own list has ten names, and the completed call has no rafter
    member at all. *)
Theorem rafter_chain_from_last_purlin :
  (exists st names cc,
     purlins_built level_math one_copy = Ok (st, Some names) /\
     names = ["N_0.000_3.120_2.225"; "N_0.200_3.120_2.225"; "N_1.020_3.120_2.225";
              "N_2.030_3.120_2.225"; "N_2.840_3.120_2.225"; "N_3.040_3.120_2.225"] /\
     column_coords level_math one_copy = Ok cc /\
     one_rafter_names (raf_pur_inter_points level_math one_copy) cc st 0
                      (y_cols one_copy)
     = Ok ["N_0.200_0.300_2.225"; "N_0.200_1.400_2.225"; "N_0.200_2.020_2.225";
           "N_0.200_3.120_2.225"; "N_0.200_0.400_0.000"; "N_0.200_0.400_2.225"] /\
     option_map material_name
       (members st !! member_name "N_0.000_3.120_2.225" "N_0.200_3.120_2.225")
     = Some "purlin_mat" /\
     build_rafter (raf_pur_inter_points level_math one_copy) cc (y_cols one_copy) 0
                  (st, Some names) 0
     = Raise member_exists /\
     generate_structure level_math one_copy = Raise member_exists) /\
  (exists st cc meshes all_nodes model,
     purlins_built level_math two_copies = Ok (st, Some []) /\
     column_coords level_math two_copies = Ok cc /\
     one_rafter_names (raf_pur_inter_points level_math two_copies) cc st 0
                      (y_cols two_copies)
     = Ok ["N_0.200_0.300_2.225"; "N_0.200_1.400_2.225"; "N_0.200_2.020_2.225";
           "N_0.200_3.120_2.225"; "N_0.200_0.300_2.225"; "N_0.200_1.400_2.225";
           "N_0.200_2.020_2.225"; "N_0.200_3.120_2.225"; "N_0.200_0.400_0.000";
           "N_0.200_0.400_2.225"] /\
     run_structure level_math two_copies = Ok (meshes, all_nodes, model) /\
     members_of_material model "rafter_mat" = []).
Proof.
  split.
  - pose (st := value_or (empty_model, None : option (list string))
                  (purlins_built level_math one_copy)).
    pose (cc := value_or [] (column_coords level_math one_copy)).
    exists (fst st), (default [] (snd st)), cc.
    split; [refine (ok_pair _ _ _ _ _); vm_compute; reflexivity|].
    split; [vm_compute; reflexivity|].
    split; [refine (ok_value _ _ _); vm_compute; reflexivity|].
    split; [vm_compute; reflexivity|].
    split; [vm_compute; reflexivity|].
    split; vm_compute; reflexivity.
  - pose (st := value_or (empty_model, None : option (list string))
                  (purlins_built level_math two_copies)).
    pose (cc := value_or [] (column_coords level_math two_copies)).
    pose (r := value_or ([], [], empty_model) (run_structure level_math two_copies)).
    exists (fst st), cc, (fst (fst r)), (snd (fst r)), (snd r).
    split; [refine (ok_pair _ _ _ _ _); vm_compute; reflexivity|].
    split; [refine (ok_value _ _ _); vm_compute; reflexivity|].
    split; [vm_compute; reflexivity|].
    split; [refine (ok_triple _ _ _); vm_compute; reflexivity|].
    vm_compute; reflexivity.
Qed.

(** *** No completed call has a rafter member *)

Lemma for_each_inv {A S : Type} (P : S -> Prop) (body : S -> A -> result S)
    (xs : list A) :
  (forall s x s', P s -> body s x = Ok s' -> P s') ->
  forall s s', P s -> for_each xs body s = Ok s' -> P s'.
Proof.
  intros Hbody. induction xs as [|x xs IH]; simpl; intros s s' Hs H.
  - now injection H as <-.
  - destruct (body s x) as [s1|] eqn:E; simpl in H; [|discriminate].
    eapply IH; [|exact H]. eapply Hbody; eauto.
Qed.

Lemma add_member_ok (model model' : FEModel3D) (name : string) (mem : Member) :
  add_member model name mem = Ok model' ->
  members model !! name = None /\
  nodes model' = nodes model /\
  members model' = <[name := mem]> (members model).
Proof.
  unfold add_member. destruct (members model !! name); [discriminate|].
  destruct (nodes model !! i_node mem); [|discriminate].
  destruct (nodes model !! j_node mem); [|discriminate].
  intros H. injection H as <-. auto.
Qed.

(** A chain that succeeds only adds members of its own material, keeps
    the members there were, and registers the member of its first pair. *)
Lemma add_member_chain_ok (material section : string) (rot : Q) (names : list string) :
  forall model model',
    add_member_chain model names material section rot = Ok model' ->
    (forall k, is_Some (members model !! k) -> is_Some (members model' !! k)) /\
    (forall k mem, members model' !! k = Some mem ->
                   members model !! k = Some mem \/ material_name mem = material) /\
    head_member_registered model' names.
Proof.
  induction names as [|a [|b rest] IH]; intros model model' H.
  - injection H as <-. split; [auto|]. split; [auto|]. intros ? ? ? E; discriminate.
  - injection H as <-. split; [auto|]. split; [auto|]. intros ? ? ? E; discriminate.
  - change (add_member_chain model (a :: b :: rest) material section rot)
      with (let! model1 := add_member model (member_name a b)
                             {| i_node := a; j_node := b; material_name := material;
                                section_name := section; rotation := rot |} in
            add_member_chain model1 (b :: rest) material section rot) in H.
    destruct (add_member model (member_name a b) _) as [model1|] eqn:E;
      simpl in H; [|discriminate].
    apply add_member_ok in E as (Hfresh & _ & Hmem).
    destruct (IH model1 model' H) as (Hkeep & Hnew & _).
    assert (Hkeep1 : forall k, is_Some (members model !! k) ->
                               is_Some (members model1 !! k)).
    { intros k Hk. rewrite Hmem. apply lookup_insert_is_Some'. now right. }
    split; [auto|]. split.
    + intros k mem Hk. destruct (Hnew k mem Hk) as [H1|H1]; [|now right].
      rewrite Hmem in H1. destruct (decide (member_name a b = k)) as [<-|Hne].
      * rewrite lookup_insert_eq in H1. injection H1 as <-. now right.
      * rewrite lookup_insert_ne in H1 by exact Hne. now left.
    + intros a' b' rest' E'. injection E' as <- <- <-.
      apply Hkeep. rewrite Hmem. apply lookup_insert_is_Some'. now left.
Qed.

Lemma build_purlin_state (rp pp pan : list (list (list point))) (purlin_angle : Q)
    (st st' : builder_state) (ij : nat * nat) :
  purlin_state st -> build_purlin rp pp pan purlin_angle st ij = Ok st' ->
  purlin_state st'.
Proof.
  intros [Hall _]. unfold build_purlin.
  destruct (one_purlin_nodes rp pp pan (fst ij) (snd ij)) as [pts|]; simpl; [|discriminate].
  destruct (add_member_chain _ _ _ _ _) as [model|] eqn:E; simpl; [|discriminate].
  intros H. injection H as <-.
  destruct (add_member_chain_ok _ _ _ _ _ _ E) as (_ & Hnew & Hhead).
  destruct (add_purlin_nodes_spec pts (fst st) []) as (_ & _ & _ & Hmem);
    [constructor|intros n Hn; inversion Hn|].
  split; simpl.
  - intros k mem Hk. destruct (Hnew k mem Hk) as [H1|H1]; [|exact H1].
    rewrite Hmem in H1. eapply Hall, H1.
  - intros names Hn. now injection Hn as <-.
Qed.

Lemma add_column_nodes_members (cc : list (list point)) (i : nat) (y_cols_count : Z)
    (model : FEModel3D) (r : FEModel3D * list point) :
  add_column_nodes cc model i y_cols_count = Ok r -> members (fst r) = members model.
Proof.
  unfold add_column_nodes.
  apply (for_each_inv (fun acc : FEModel3D * list point =>
                         members (fst acc) = members model)); [|reflexivity].
  intros acc c acc' Hacc H.
  destruct (index cc i) as [seg|]; simpl in H; [|discriminate].
  destruct (index seg c) as [column_node|]; simpl in H; [|discriminate].
  destruct (add_node (fst acc) (node_name column_node) column_node) as [model'|] eqn:E;
    simpl in H; [|discriminate].
  injection H as <-. simpl. apply add_node_ok in E as (_ & _ & Hm). congruence.
Qed.

(** An iteration of the rafter loop that succeeds adds no member: a
    chain of two names or more asks for a member the purlin loop added. *)
Lemma build_rafter_state (rp : list (list (list point))) (cc : list (list point))
    (y_cols_count : Z) (rafter_angle : Q) (st st' : builder_state) (i : nat) :
  purlin_state st -> build_rafter rp cc y_cols_count rafter_angle st i = Ok st' ->
  purlin_state st'.
Proof.
  intros [Hall Hhead]. unfold build_rafter.
  destruct (rafter_crossings rp i) as [crossings|]; simpl; [|discriminate].
  destruct (add_column_nodes cc (fst st) i y_cols_count) as [cols|] eqn:Ec; simpl;
    [|discriminate].
  apply add_column_nodes_members in Ec.
  destruct (snd st) as [names|] eqn:En; [|discriminate].
  specialize (Hhead names eq_refl).
  destruct names as [|a [|b rest]]; simpl.
  - intros H. injection H as <-. split; simpl.
    + intros k mem Hk. rewrite Ec in Hk. eapply Hall, Hk.
    + intros names Hn. injection Hn as <-. intros ? ? ? E; discriminate.
  - intros H. injection H as <-. split; simpl.
    + intros k mem Hk. rewrite Ec in Hk. eapply Hall, Hk.
    + intros names Hn. injection Hn as <-. intros ? ? ? E; discriminate.
  - destruct (Hhead a b rest eq_refl) as [mem Hmem].
    unfold add_member. rewrite Ec, Hmem. simpl. discriminate.
Qed.

(** X22.  In every completed call all the members of the model are purlin
    members: none carries the rafter material. *)
Lemma completed_run_has_no_rafter_member (M : MathModule) (p : Params)
    (meshes : list primitive) (all_nodes : list point) (model : FEModel3D) :
  run_structure M p = Ok (meshes, all_nodes, model) ->
  only_purlin_members model /\ members_of_material model "rafter_mat" = [].
Proof.
  unfold run_structure. intros H.
  destruct (columns_stage M p); simpl in H; [|discriminate].
  destruct (panels_stage M p); simpl in H; [|discriminate].
  destruct (column_coords M p) as [cc|]; simpl in H; [|discriminate].
  destruct (build_model _ _ _ _ _ _ _) as [md|] eqn:Eb; simpl in H; [|discriminate].
  injection H as _ _ <-. unfold build_model in Eb.
  destruct (purlin_loop _ _ _ _) as [st|] eqn:Ep; simpl in Eb; [|discriminate].
  destruct (rafter_loop _ _ _ _ _ _) as [st'|] eqn:Er; simpl in Eb; [|discriminate].
  injection Eb as <-.
  assert (Hst : purlin_state st).
  { unfold purlin_loop in Ep.
    eapply (for_each_inv purlin_state); [|split|exact Ep].
    - intros s x s'. apply build_purlin_state.
    - intros name mem Hk. simpl in Hk. now rewrite lookup_empty in Hk.
    - simpl. discriminate. }
  assert (Hst' : purlin_state st').
  { unfold rafter_loop in Er.
    eapply (for_each_inv purlin_state); [|exact Hst|exact Er].
    intros s x s'. apply build_rafter_state. }
  destruct Hst' as [Hall _]. split; [exact Hall|].
  unfold members_of_material. apply filter_none. apply List.Forall_forall.
  intros [name mem] Hin. apply list_elem_of_In, elem_of_map_to_list in Hin.
  simpl. now rewrite (Hall name mem Hin).
Qed.

(** * Further properties of the code *)

(** ** A flat purlin pair *)

Lemma valid_layout_stages (M : MathModule) (p : Params) :
  valid p ->
  columns_stage M p = Ok (column_meshes M p) /\
  panels_stage M p = Ok (panel_meshes M p) /\
  (exists ij rest, copies p = ij :: rest) /\
  (exists x rest, rafter_x_nodes p = x :: rest) /\
  (exists x rest, panel_x_coords p = x :: rest).
Proof.
  intros V.
  destruct (copies_nonempty p (valid_copies_in_x p V) (valid_copies_in_y p V))
    as (ij & rest & Ec).
  destruct (range_nonempty _ (valid_x_cols p V)) as (x0 & xl & Ex).
  destruct (range_nonempty _ (valid_rows p V)) as (r0 & rl & Er).
  destruct (range_nonempty _ (valid_cols p V)) as (c0 & cl & Ecl).
  split; [|split; [|split; [|split]]].
  - unfold columns_stage. rewrite Ec, Ex. now destruct (range (y_cols p)).
  - unfold panels_stage. now rewrite Ec, Ecl, Er.
  - eauto.
  - unfold rafter_x_nodes. rewrite Ec, Ex. cbn. eauto.
  - unfold panel_x_coords. rewrite Ec, Ecl. cbn. eauto.
Qed.

Lemma roof_line_valid (M : MathModule) (p : Params) :
  valid p ->
  exists x,
    roof_line M p
    = fit_line (x, pur_y_pos_1 M p (rows p - 1), pur_z_pos_1 M p (rows p - 1))
               (x, pur_y_pos_2 M p (rows p - 1), pur_z_pos_2 M p (rows p - 1)).
Proof.
  intros V. destruct (valid_layout_stages M p V) as (_ & _ & _ & (x & rest & Ex) & _).
  exists x. unfold roof_line.
  destruct (rev (range (rows p))) as [|row l] eqn:Erow.
  - apply (f_equal (@length Z)) in Erow. rewrite length_rev, length_range in Erow.
    pose proof (valid_rows p V). simpl in Erow. lia.
  - apply last_of_range in Erow. subst row.
    unfold low_per_raf_points, up_per_raf_points, per_raf_points. rewrite Ex.
    reflexivity.
Qed.

Lemma purlin_pair_apart (M : MathModule) (p : Params) (row : Z) :
  pur_y_pos_2 M p row - pur_y_pos_1 M p row == purlin_spacing M p.
Proof. unfold pur_y_pos_2. ring. Qed.

(** X4.  For a valid parameter set whose two purlins of a row coincide
    in plan, that is when [panel_length = 2 * purlin_offset] or the cosine
    of the tilt is zero, the roof-line fit divides by zero and the call
    raises [ZeroDivisionError].  Nothing is said of the other parameter
    sets: a spacing that is not zero but too small to move the purlin
    position in double precision ends the same way in the source. *)
Theorem flat_purlin_pair_divides_by_zero (M : MathModule) (p : Params) :
  valid p ->
  (purlin_spacing M p == 0 <->
   panel_length p == 2 * purlin_offset p \/ cos M (angle_rad M p) == 0) /\
  (purlin_spacing M p == 0 ->
   column_coords M p = Raise ZeroDivisionError /\
   generate_structure M p = Raise ZeroDivisionError).
Proof.
  intros V.
  destruct (valid_layout_stages M p V) as (Hc & Hp & (ij & rest & Ec) & _).
  destruct (roof_line_valid M p V) as (x & Hline).
  assert (Hcc : column_coords M p
                = let! mc := roof_line M p in
                  Ok (flat_map (fun _ : Z * Z =>
                                  column_coords_of_copy M p (fst mc) (snd mc)) (copies p))).
  { unfold column_coords. now rewrite Ec. }
  split.
  - unfold purlin_spacing. split.
    + intros H. apply Qmult_integral in H as [H|H]; [left|now right]. lra.
    + intros [H|H]; rewrite H; ring.
  - intros Hz.
    assert (E : column_coords M p = Raise ZeroDivisionError).
    { rewrite Hcc, Hline. unfold fit_line, py. cbn [fst snd].
      rewrite (proj2 (Qeq_bool_iff _ _)); [reflexivity|].
      now rewrite purlin_pair_apart. }
    split; [exact E|].
    unfold generate_structure, run_structure. now rewrite Hc, Hp, E.
Qed.

Lemma valid_flat_pair : valid flat_pair.
Proof. constructor; vm_compute; intuition congruence. Qed.

Lemma flat_purlin_pair_divides_by_zero_witness :
  panel_length flat_pair == 2 * purlin_offset flat_pair /\
  generate_structure level_math flat_pair = Raise ZeroDivisionError.
Proof.
  destruct (flat_purlin_pair_divides_by_zero level_math flat_pair valid_flat_pair)
    as [Hiff Hraise].
  assert (Hz : purlin_spacing level_math flat_pair == 0) by reflexivity.
  split; [reflexivity|]. exact (proj2 (Hraise Hz)).
Defined.

(** ** The support grid *)

Lemma inject_Z_nonzero (n : Z) : n <> 0%Z -> ~ inject_Z n == 0.
Proof. intros Hn H. unfold Qeq in H. simpl in H. lia. Qed.

(** X5.  With two or more rows of columns, the first row stands at the
    front offset and the last at the rear offset, both measured on the
    ground from the two ends of the slope; a single row stands at the
    front offset, not at mid slope.  With two or more rafters the first is
    at the panel overhang and the last one [total_width] further; every
    column stands one rafter width to the left of its rafter. *)
Theorem support_grid_span (M : MathModule) (p : Params) :
  ((2 <= y_cols p)%Z ->
   column_cy M p 0 == front_offset p * cos M (angle_rad M p) /\
   column_cy M p (y_cols p - 1)
   == total_ground_length M p - rear_offset p * cos M (angle_rad M p)) /\
  (y_cols p = 1%Z ->
   List.Forall (fun y => y == front_offset p * cos M (angle_rad M p))
               (column_y_pos M p)) /\
  ((2 <= x_cols p)%Z ->
   rafter_rx p 0 == hor_panel_overhang p /\
   rafter_rx p (x_cols p - 1) == hor_panel_overhang p + total_width p /\
   forall x_i, column_cx p x_i == rafter_rx p x_i - raf_wid p).
Proof.
  split; [|split].
  - intros Hy. unfold column_cy, y_spacing_ground, div_y.
    rewrite Z.max_r by lia.
    pose proof (inject_Z_nonzero (y_cols p - 1) ltac:(lia)) as Hne.
    split; [unfold inject_Z at 1; ring|]. field. exact Hne.
  - intros Hy. unfold column_y_pos. rewrite Hy. cbn.
    constructor; [|constructor]. unfold column_cy. ring.
  - intros Hx. unfold column_cx, rafter_rx, x_spacing, div_x.
    assert (E : (1 <? x_cols p)%Z = true) by (apply Z.ltb_lt; lia).
    rewrite E, Z.max_r by lia.
    assert (E' : (0 <? x_cols p - 1)%Z = true) by (apply Z.ltb_lt; lia).
    rewrite E'.
    pose proof (inject_Z_nonzero (x_cols p - 1) ltac:(lia)) as Hne.
    split; [ring|]. split; [field; exact Hne|]. intros x_i. ring.
Qed.

Lemma support_grid_span_witness :
  column_cy level_math two_copies (y_cols two_copies - 1)
  == total_ground_length level_math two_copies - (4 # 10) * 1 /\
  rafter_rx two_copies (x_cols two_copies - 1)
  == hor_panel_overhang two_copies + total_width two_copies /\
  List.Forall (fun y => y == (4 # 10) * 1)
              (column_y_pos level_math (dashboard (4 # 10) (4 # 10) (2 # 10) (2 # 10) 1 1 2 1)).
Proof.
  destruct (support_grid_span level_math two_copies) as (Hy & _ & Hx).
  destruct (support_grid_span level_math
              (dashboard (4 # 10) (4 # 10) (2 # 10) (2 # 10) 1 1 2 1)) as (_ & H1 & _).
  split; [apply Hy; vm_compute; discriminate|].
  split; [apply Hx; vm_compute; discriminate|].
  apply H1. reflexivity.
Defined.

(** X6.  The height to which a column is built grows along the slope by
    the row spacing times the tangent of the tilt: with a non-negative
    tangent and a non-negative spacing it never decreases from one row of
    columns to the next. *)
Theorem column_heights_rise (M : MathModule) (p : Params) (y_i y_j : Z) :
  calculated_height M p y_j - calculated_height M p y_i
  == inject_Z (y_j - y_i) * y_spacing_ground M p * tan M (angle_rad M p) /\
  (0 <= tan M (angle_rad M p) -> 0 <= y_spacing_ground M p -> (y_i <= y_j)%Z ->
   calculated_height M p y_i <= calculated_height M p y_j).
Proof.
  assert (E : calculated_height M p y_j - calculated_height M p y_i
              == inject_Z (y_j - y_i) * y_spacing_ground M p * tan M (angle_rad M p)).
  { unfold calculated_height, column_cy.
    replace (y_j - y_i)%Z with (y_j + - y_i)%Z by lia.
    rewrite inject_Z_plus, inject_Z_opp. ring. }
  split; [exact E|]. intros Ht Hs Hle.
  assert (Hd : 0 <= inject_Z (y_j - y_i)).
  { unfold Qle. simpl. lia. }
  assert (Hprod : 0 <= inject_Z (y_j - y_i) * y_spacing_ground M p * tan M (angle_rad M p)).
  { apply Qmult_le_0_compat; [apply Qmult_le_0_compat|]; assumption. }
  rewrite <- E in Hprod. lra.
Qed.

Lemma column_heights_rise_witness :
  calculated_height level_math two_copies 0 <= calculated_height level_math two_copies 1.
Proof.
  apply (column_heights_rise level_math two_copies 0 1);
    vm_compute; discriminate.
Defined.

(** ** Panels, purlins and rafters *)

Lemma inject_Z_succ (n : Z) : inject_Z (n + 1) == inject_Z n + 1.
Proof. now rewrite inject_Z_plus. Qed.

Lemma inject_Z_pred (n : Z) : inject_Z (n - 1) == inject_Z n - 1.
Proof.
  replace (n - 1)%Z with (n + - (1))%Z by lia.
  now rewrite inject_Z_plus, inject_Z_opp.
Qed.

(** X7.  Neighbouring panels are [h_gap] apart across the width and
    [v_gap] apart along the slope.  The panel field starts at 0 both ways,
    is [total_width + 2 * hor_panel_overhang] wide and
    [total_slope_length] long; so with two or more rafters the outer
    rafters stand [hor_panel_overhang] inside the two sides of the field. *)
Theorem panel_field (p : Params) (c r : Z) :
  panel_left p (c + 1) - panel_right p c == h_gap p /\
  panel_low p (r + 1) - panel_high p r == v_gap p /\
  panel_left p 0 == 0 /\ panel_low p 0 == 0 /\
  panel_right p (cols p - 1) == total_width p + 2 * hor_panel_overhang p /\
  panel_high p (rows p - 1) == total_slope_length p /\
  ((2 <= x_cols p)%Z ->
   rafter_rx p 0 - panel_left p 0 == hor_panel_overhang p /\
   panel_right p (cols p - 1) - rafter_rx p (x_cols p - 1) == hor_panel_overhang p).
Proof.
  unfold panel_left, panel_right, panel_low, panel_high, local_x, local_y,
    total_width, total_slope_length, horiz_spacing, vert_spacing.
  rewrite !inject_Z_succ, !inject_Z_pred.
  split; [field|]. split; [field|]. split; [unfold inject_Z; field|].
  split; [unfold inject_Z; field|]. split; [field|]. split; [field|].
  intros Hx. unfold rafter_rx, x_spacing, div_x, total_width, horiz_spacing.
  assert (E : (1 <? x_cols p)%Z = true) by (apply Z.ltb_lt; lia).
  rewrite E, Z.max_r by lia.
  assert (E' : (0 <? x_cols p - 1)%Z = true) by (apply Z.ltb_lt; lia).
  rewrite E'.
  pose proof (inject_Z_nonzero (x_cols p - 1) ltac:(lia)) as Hne.
  split; [change (inject_Z 0) with 0; field; exact Hne|]. field. exact Hne.
Qed.

Lemma panel_field_witness :
  rafter_rx two_copies 0 - panel_left two_copies 0 == 2 # 10 /\
  panel_right two_copies (cols two_copies - 1)
  - rafter_rx two_copies (x_cols two_copies - 1) == 2 # 10.
Proof.
  apply (panel_field two_copies 0 0). vm_compute. discriminate.
Defined.

(** X8.  The panel-edge points of a purlin: the first is the left side
    of the field, the second the left side of the second panel, and from
    the third on each is the middle of the gap before its panel.  With a
    non-negative gap every one after the first lies in the gap between
    its panel and the panel before. *)
Theorem panel_edge_points (p : Params) (c : Z) :
  x_coord p 0 == 0 /\
  x_coord p 1 == panel_left p 1 /\
  ((2 <= c)%Z -> x_coord p c == (panel_right p (c - 1) + panel_left p c) / 2) /\
  ((1 <= c)%Z -> 0 <= h_gap p ->
   panel_right p (c - 1) <= x_coord p c /\ x_coord p c <= panel_left p c).
Proof.
  assert (Hmid : (2 <= c)%Z ->
                 x_coord p c == (panel_right p (c - 1) + panel_left p c) / 2).
  { intros Hc. unfold x_coord.
    assert (E : (1 <? c)%Z = true) by (apply Z.ltb_lt; lia). rewrite E.
    unfold panel_right, panel_left, local_x, horiz_spacing.
    rewrite inject_Z_pred. field. }
  assert (Hgap : panel_left p c - panel_right p (c - 1) == h_gap p).
  { unfold panel_left, panel_right, local_x, horiz_spacing.
    rewrite inject_Z_pred. field. }
  split; [|split; [|split]].
  - unfold x_coord, local_x. cbn. unfold inject_Z. field.
  - reflexivity.
  - exact Hmid.
  - intros Hc Hg. destruct (Z.eq_dec c 1%Z) as [->|Hne].
    + change (x_coord p 1) with (panel_left p 1). clear Hmid.
      set (a := panel_right p (1 - 1)) in *. set (b := panel_left p 1) in *.
      set (g := h_gap p) in *. split; lra.
    + pose proof (Hmid ltac:(lia)) as Hm. clear Hmid.
      set (a := panel_right p (c - 1)) in *. set (b := panel_left p c) in *.
      set (x := x_coord p c) in *. set (g := h_gap p) in *.
      assert (Hx : 2 * x == a + b) by (rewrite Hm; field).
      split; lra.
Qed.

Lemma panel_edge_points_witness :
  x_coord two_copies 2 == (panel_right two_copies 1 + panel_left two_copies 2) / 2 /\
  panel_right two_copies 1 <= x_coord two_copies 2 /\
  x_coord two_copies 2 <= panel_left two_copies 2.
Proof.
  destruct (panel_edge_points two_copies 2) as (_ & _ & Hmid & Hgap).
  split; [apply Hmid; vm_compute; discriminate|].
  apply Hgap; vm_compute; discriminate.
Defined.

(** X9.  The two purlins of a row lie [purlin_offset] inside the lower
    and the upper edge of that row's panels, measured along the slope, so
    the panel centre line is midway between them; each purlin is centred
    between its two ends, which reach [hor_purlin_overhang] beyond the
    positions [hor_panel_overhang] and [hor_panel_overhang + total_width]
    of the outer rafters. *)
Theorem purlins_carry_panels (M : MathModule) (p : Params) (row : Z) :
  pur_y_pos_1 M p row == (panel_low p row + purlin_offset p) * cos M (angle_rad M p) /\
  pur_y_pos_2 M p row == (panel_high p row - purlin_offset p) * cos M (angle_rad M p) /\
  (pur_y_pos_1 M p row + pur_y_pos_2 M p row) / 2 == pan_y M p row /\
  forall cy cz,
    exists l r,
      per_points p cy cz = [l; r] /\
      px l == hor_panel_overhang p - hor_purlin_overhang p /\
      px r == hor_panel_overhang p + total_width p + hor_purlin_overhang p /\
      (px l + px r) / 2 == purlin_cx p /\ px r - px l == perlin_height p /\
      py l = cy /\ py r = cy /\ pz l = cz /\ pz r = cz.
Proof.
  unfold pur_y_pos_2, purlin_spacing, pur_y_pos_1, panel_low, panel_high, pan_y,
    local_y, vert_spacing.
  split; [field|]. split; [field|]. split; [field|].
  intros cy cz. do 2 eexists. split; [reflexivity|].
  unfold px, py, pz, purlin_cx, perlin_height. cbn [fst snd].
  split; [field|]. split; [field|]. split; [field|]. split; [field|].
  repeat split.
Qed.

(** X10.  A rafter is centred at mid slope in plan whenever the rafter
    offset [purlin_offset - rafter_purlin_offset] is positive, whatever
    its size, and its span is the slope length less the offset at both
    ends; with an offset that is not positive the centre is moved up the
    slope by the size of the offset on the ground.  The height of the
    centre does not depend on the offset. *)
Theorem rafter_centred (M : MathModule) (p : Params) :
  (0 < rafter_off p -> rafter_mid_y M p == total_ground_length M p / 2) /\
  (rafter_off p <= 0 ->
   rafter_mid_y M p
   == total_ground_length M p / 2 - rafter_off p * cos M (angle_rad M p)) /\
  rafter_mid_z M p == roof_height M p (total_ground_length M p / 2) + raf_len p / 2 /\
  rafter_height p == total_slope_length p - 2 * rafter_off p.
Proof.
  unfold rafter_mid_y, Qlt_bool. split; [|split; [|split]].
  - intros H. destruct (Qle_bool (rafter_off p) 0) eqn:E.
    + apply Qle_bool_iff in E. lra.
    + cbn. field.
  - intros H. apply Qle_bool_iff in H. rewrite H. cbn. field.
  - unfold rafter_mid_z, roof_height. field.
  - reflexivity.
Qed.

Lemma rafter_centred_witness :
  rafter_mid_y level_math two_copies == total_ground_length level_math two_copies / 2 /\
  rafter_mid_y level_math (with_purlin_offset (1 # 10) two_copies)
  == total_ground_length level_math (with_purlin_offset (1 # 10) two_copies) / 2
     - (- (1 # 10)) * 1.
Proof.
  split.
  - apply (rafter_centred level_math two_copies). reflexivity.
  - destruct (rafter_centred level_math (with_purlin_offset (1 # 10) two_copies))
      as (_ & H & _).
    rewrite H; [reflexivity|]. vm_compute. discriminate.
Defined.

(** X11.  When [sin = cos * tan] at the tilt angle, the panel height,
    computed from the position along the slope, obeys the same roof law
    as the columns and purlins, computed from the position on the ground:
    the mid-plane of a panel is [stack_height] above the column tops at
    its own ground position, which is
    [pur_len - raf_len/2 + panel_thickness/2 + 0.02] above the centre line
    of the purlins. *)
Theorem panel_on_roof_law (M : MathModule) (p : Params) (r row : Z) :
  sin M (angle_rad M p) == cos M (angle_rad M p) * tan M (angle_rad M p) ->
  pan_z M p r == roof_height M p (pan_y M p r) + stack_height p /\
  pur_z_pos_1 M p row == roof_height M p (pur_y_pos_1 M p row) + raf_len p * (15 # 10) /\
  pur_z_pos_2 M p row == roof_height M p (pur_y_pos_2 M p row) + raf_len p * (15 # 10) /\
  pan_z M p r - (roof_height M p (pan_y M p r) + raf_len p * (15 # 10))
  == pur_len p - raf_len p / 2 + panel_thickness p / 2 + (2 # 100).
Proof.
  intros Htrig.
  assert (E : pan_z M p r == roof_height M p (pan_y M p r) + stack_height p).
  { unfold pan_z, roof_height, pan_y. rewrite Htrig. ring. }
  split; [exact E|]. split; [reflexivity|]. split; [reflexivity|].
  rewrite E. unfold stack_height. field.
Qed.

Lemma panel_on_roof_law_witness :
  pan_z level_math two_copies 1
  == roof_height level_math two_copies (pan_y level_math two_copies 1)
     + stack_height two_copies.
Proof.
  apply (panel_on_roof_law level_math two_copies 1 0). reflexivity.
Defined.

(** ** How many meshes and nodes a call produces *)

Section Counts.

Variable M : MathModule.
Variable p : Params.

(** The number of array copies. *)
Let n : nat := length (copies p).

Lemma count_in_columns (name : string) :
  length (List.filter (mesh_named name) (column_meshes M p))
  = (n * (Z.to_nat (y_cols p) * (Z.to_nat (x_cols p)
       * ((if String.eqb "Column" name then 1 else 0)
          + (if String.eqb "Block" name then 1 else 0)))))%nat.
Proof.
  unfold column_meshes. apply length_filter_flat_map. intros ij.
  unfold columns_of_copy.
  rewrite (length_filter_flat_map _ _
             (Z.to_nat (x_cols p)
              * ((if String.eqb "Column" name then 1 else 0)
                 + (if String.eqb "Block" name then 1 else 0)))).
  - now rewrite length_range.
  - intros y_i.
    rewrite (length_filter_flat_map _ _
               ((if String.eqb "Column" name then 1 else 0)
                + (if String.eqb "Block" name then 1 else 0))).
    + now rewrite length_range.
    + intros x_i. cbn [List.filter mesh_named column_mesh block_mesh
                        create_c_section_cq create_component_cq m_name].
      destruct (String.eqb "Column" name), (String.eqb "Block" name); reflexivity.
Qed.

Lemma count_in_rafters (name : string) :
  length (List.filter (mesh_named name) (rafter_meshes M p))
  = (n * (Z.to_nat (x_cols p) * (if String.eqb "Rafter" name then 1 else 0)))%nat.
Proof.
  unfold rafter_meshes. apply length_filter_flat_map. intros ij.
  unfold rafters_of_copy. destruct (String.eqb "Rafter" name) eqn:E.
  - rewrite length_filter_map_all, length_range; [lia|]. intros a. exact E.
  - rewrite length_filter_map_none; [lia|]. intros a. exact E.
Qed.

Lemma count_in_purlins (name : string) :
  length (List.filter (mesh_named name) (purlin_meshes M p))
  = (n * (Z.to_nat (rows p) * (if String.eqb "Purlin" name then 2 else 0)))%nat.
Proof.
  unfold purlin_meshes. apply length_filter_flat_map. intros ij.
  rewrite (length_filter_flat_map _ _ (if String.eqb "Purlin" name then 2 else 0)).
  - now rewrite length_range.
  - intros row. cbn [List.filter mesh_named purlins_of_row purlin_mesh
                      create_c_section_cq m_name].
    destruct (String.eqb "Purlin" name); reflexivity.
Qed.

Lemma count_in_panels (name : string) :
  starts_with "Panel R" name = false ->
  length (List.filter (mesh_named name) (panel_meshes M p)) = 0%nat.
Proof.
  intros Hname.
  assert (H : List.Forall (fun prim => mesh_named name prim = false) (panel_meshes M p)).
  { unfold panel_meshes, panels_of_copy.
    repeat (apply Forall_flat_map_intro; intros ?).
    apply Forall_map_intro; intros r.
    unfold mesh_named, panel_mesh, create_component_cq. cbn [m_name].
    destruct (String.eqb_spec (panel_name r a0) name) as [<-|]; [|reflexivity].
    unfold panel_name in Hname. cbn in Hname. discriminate Hname. }
  now rewrite (filter_none _ _ H).
Qed.

Lemma count_in_trace (name : string) (l : list point) :
  length (List.filter (mesh_named name) (node_trace l)) = 0%nat.
Proof. destruct l; reflexivity. Qed.

End Counts.

Lemma length_concat_blocks {A : Type} (k : nat) (X : list (list (list A))) :
  List.Forall (fun e => length (concat e) = k) X ->
  length (concat (concat X)) = (length X * k)%nat.
Proof.
  induction 1 as [|e X He _ IH]; [reflexivity|].
  cbn [concat length]. now rewrite concat_app, length_app, He, IH.
Qed.

Lemma length_rows_of_copies {A : Type} (p : Params) (f : Z -> A) :
  length (flat_map (fun _ : Z * Z => List.map f (range (rows p))) (copies p))
  = (length (copies p) * Z.to_nat (rows p))%nat.
Proof.
  apply length_flat_map_const. intros _. now rewrite length_map, length_range.
Qed.

Lemma Forall_rows_of_copies {A : Type} (p : Params) (f : Z -> A) (P : A -> Prop) :
  (forall row, P (f row)) ->
  List.Forall P (flat_map (fun _ : Z * Z => List.map f (range (rows p))) (copies p)).
Proof.
  intros Hf. apply Forall_flat_map_intro. intros _. now apply Forall_map_intro.
Qed.

Lemma length_rafter_x_nodes (p : Params) :
  length (rafter_x_nodes p) = (length (copies p) * Z.to_nat (x_cols p))%nat.
Proof.
  unfold rafter_x_nodes. apply length_flat_map_const.
  intros _. now rewrite length_map, length_range.
Qed.

Lemma length_panel_x_coords (p : Params) :
  length (panel_x_coords p) = (length (copies p) * Z.to_nat (cols p))%nat.
Proof.
  unfold panel_x_coords. apply length_flat_map_const.
  intros _. now rewrite length_map, length_range.
Qed.

Lemma column_coords_of_copy_shape (M : MathModule) (p : Params) (m c : Q) :
  length (column_coords_of_copy M p m c)
  = (length (rafter_x_nodes p) * Z.to_nat (y_cols p))%nat /\
  List.Forall (fun seg => length seg = 2%nat) (column_coords_of_copy M p m c).
Proof.
  unfold column_coords_of_copy, column_top_height, column_y_pos. split.
  - apply length_flat_map_const. intros x.
    now rewrite length_map, length_combine, !length_map, length_range, Nat.min_id.
  - apply Forall_flat_map_intro. intros x. now apply Forall_map_intro.
Qed.

(** The segments of [column_coords]: how many, and two points each. *)
Lemma column_coords_shape (M : MathModule) (p : Params) (cc : list (list point)) :
  column_coords M p = Ok cc ->
  length cc
  = (length (copies p) * (length (rafter_x_nodes p) * Z.to_nat (y_cols p)))%nat /\
  List.Forall (fun seg => length seg = 2%nat) cc.
Proof.
  unfold column_coords. destruct (copies p) as [|ij rest] eqn:Ec.
  - intros H. injection H as <-. split; [reflexivity|constructor].
  - destruct (roof_line M p) as [[m c]|]; cbn [bind]; [|discriminate].
    intros H. injection H as <-. cbn [fst snd].
    destruct (column_coords_of_copy_shape M p m c) as [Hlen Hseg]. split.
    + exact (length_flat_map_const (fun _ : Z * Z => column_coords_of_copy M p m c)
               _ (ij :: rest) (fun _ => Hlen)).
    + exact (Forall_flat_map_intro _ (fun _ : Z * Z => column_coords_of_copy M p m c)
               (ij :: rest) (fun _ => Hseg)).
Qed.

Lemma length_concat_pairs {A : Type} (cc : list (list A)) :
  List.Forall (fun seg => length seg = 2%nat) cc ->
  length (concat cc) = (2 * length cc)%nat.
Proof.
  induction 1 as [|seg cc Hs _ IH]; [reflexivity|].
  cbn [concat length]. rewrite length_app, Hs, IH. lia.
Qed.

Lemma length_all_fea_nodes (M : MathModule) (p : Params) (cc : list (list point)) :
  column_coords M p = Ok cc ->
  let n := (Z.to_nat (copies_in_x p) * Z.to_nat (copies_in_y p))%nat in
  length (all_fea_nodes M p cc)
  = (2 * n * Z.to_nat (rows p)
       * (n * Z.to_nat (x_cols p) + 2 + n * Z.to_nat (cols p))
     + 2 * (n * (n * Z.to_nat (x_cols p) * Z.to_nat (y_cols p))))%nat.
Proof.
  intros Hcc n. destruct (column_coords_shape M p cc Hcc) as [Hlen Hseg].
  unfold all_fea_nodes. rewrite !length_app.
  rewrite (length_concat_blocks (2 * length (rafter_x_nodes p)) (raf_pur_inter_points M p)).
  2:{ apply Forall_rows_of_copies. intros row. cbn [concat].
      unfold up_per_raf_points, low_per_raf_points, per_raf_points.
      rewrite !length_app, !length_map. simpl. lia. }
  rewrite (length_concat_blocks 4 (pur_points M p)).
  2:{ apply Forall_rows_of_copies. intros row. reflexivity. }
  rewrite (length_concat_blocks (2 * length (panel_x_coords p)) (pur_pan_inter_points M p)).
  2:{ apply Forall_rows_of_copies. intros row. cbn [concat].
      unfold per_pan_points. rewrite !length_app, !length_map. simpl. lia. }
  rewrite (length_concat_pairs cc Hseg), Hlen.
  unfold raf_pur_inter_points, pur_points, pur_pan_inter_points.
  rewrite !length_rows_of_copies, length_rafter_x_nodes, length_panel_x_coords,
    length_copies.
  fold n. nia.
Qed.

(** X1.  The FE node list of a call holds, for each of the
    [2 * rows * copies] purlins, one point per entry of [rafter_x_nodes],
    its two ends and one point per entry of [panel_x_coords], and two
    points per column segment.  As those three lists themselves grow
    with the number of array copies, the list grows with its square. *)
Theorem fe_node_count (M : MathModule) (p : Params) (cc : list (list point)) :
  column_coords M p = Ok cc ->
  let n := (Z.to_nat (copies_in_x p) * Z.to_nat (copies_in_y p))%nat in
  length (all_fea_nodes M p cc)
  = (2 * n * Z.to_nat (rows p)
       * (n * Z.to_nat (x_cols p) + 2 + n * Z.to_nat (cols p))
     + 2 * (n * (n * Z.to_nat (x_cols p) * Z.to_nat (y_cols p))))%nat.
Proof. exact (length_all_fea_nodes M p cc). Qed.

Lemma fe_node_count_witness :
  length (all_fea_nodes level_math two_copies
            (value_or [] (column_coords level_math two_copies))) = 128%nat.
Proof.
  refine (fe_node_count level_math two_copies _ _).
  refine (ok_value _ _ _); vm_compute; reflexivity.
Defined.

Lemma length_column_meshes (M : MathModule) (p : Params) :
  length (column_meshes M p)
  = (length (copies p) * (Z.to_nat (y_cols p) * (Z.to_nat (x_cols p) * 2)))%nat.
Proof.
  unfold column_meshes. apply length_flat_map_const. intros ij.
  unfold columns_of_copy.
  rewrite (length_flat_map_const _ (Z.to_nat (x_cols p) * 2)), length_range;
    [reflexivity|].
  intros y_i. rewrite (length_flat_map_const _ 2), length_range; reflexivity.
Qed.

Lemma length_rafter_meshes (M : MathModule) (p : Params) :
  length (rafter_meshes M p) = (length (copies p) * Z.to_nat (x_cols p))%nat.
Proof.
  unfold rafter_meshes. apply length_flat_map_const. intros ij.
  unfold rafters_of_copy. now rewrite length_map, length_range.
Qed.

Lemma length_purlin_meshes (M : MathModule) (p : Params) :
  length (purlin_meshes M p) = (length (copies p) * (Z.to_nat (rows p) * 2))%nat.
Proof.
  unfold purlin_meshes. apply length_flat_map_const. intros ij.
  rewrite (length_flat_map_const _ 2), length_range; reflexivity.
Qed.

(** X2.  A completed call on a valid parameter set returns, for
    [n = copies_in_x * copies_in_y] array copies, [n * y_cols * x_cols]
    columns and as many blocks, [n * x_cols] rafters, [2 * n * rows]
    purlins, the panels and one point cloud, and nothing else. *)
Theorem mesh_counts (M : MathModule) (p : Params)
    (meshes : list primitive) (all_nodes : list point) :
  valid p ->
  generate_structure M p = Ok (meshes, all_nodes) ->
  let n := (Z.to_nat (copies_in_x p) * Z.to_nat (copies_in_y p))%nat in
  let count name := length (List.filter (mesh_named name) meshes) in
  count "Column" = (n * Z.to_nat (y_cols p) * Z.to_nat (x_cols p))%nat /\
  count "Block" = (n * Z.to_nat (y_cols p) * Z.to_nat (x_cols p))%nat /\
  count "Rafter" = (n * Z.to_nat (x_cols p))%nat /\
  count "Purlin" = (2 * n * Z.to_nat (rows p))%nat /\
  length (List.filter is_panel meshes) = (n * Z.to_nat (cols p) * Z.to_nat (rows p))%nat /\
  length (List.filter is_scatter meshes) = 1%nat /\
  length meshes
  = (2 * n * Z.to_nat (y_cols p) * Z.to_nat (x_cols p) + n * Z.to_nat (x_cols p)
     + 2 * n * Z.to_nat (rows p) + n * Z.to_nat (cols p) * Z.to_nat (rows p) + 1)%nat.
Proof.
  intros V Hg n count.
  destruct (generate_structure_run M p _ _ Hg) as (model & Hr).
  destruct (run_structure_meshes M p _ _ _ Hr) as (cc & Hcc & Hnodes & Hm).
  assert (Hn : n = length (copies p)) by (symmetry; apply length_copies).
  assert (Hcount : forall name, starts_with "Panel R" name = false ->
    count name
    = (n * (Z.to_nat (y_cols p) * (Z.to_nat (x_cols p)
         * ((if String.eqb "Column" name then 1 else 0)
            + (if String.eqb "Block" name then 1 else 0))))
       + n * (Z.to_nat (x_cols p) * (if String.eqb "Rafter" name then 1 else 0))
       + n * (Z.to_nat (rows p) * (if String.eqb "Purlin" name then 2 else 0)))%nat).
  { intros name Hname. unfold count. rewrite Hm, !List.filter_app, !length_app.
    rewrite count_in_columns, count_in_rafters, count_in_purlins,
      (count_in_panels M p name Hname), count_in_trace, <- Hn. lia. }
  assert (Htrace : exists prim, node_trace all_nodes = [prim] /\ is_scatter prim = true).
  { destruct all_nodes as [|pt rest] eqn:E; [|eexists; split; reflexivity].
    exfalso. pose proof (length_all_fea_nodes M p cc Hcc) as Hlen.
    rewrite <- Hnodes in Hlen. cbn in Hlen. destruct V. nia. }
  destruct Htrace as (prim & Htr & Hsc).
  split; [rewrite (Hcount "Column" eq_refl); cbn; lia|].
  split; [rewrite (Hcount "Block" eq_refl); cbn; lia|].
  split; [rewrite (Hcount "Rafter" eq_refl); cbn; lia|].
  split; [rewrite (Hcount "Purlin" eq_refl); cbn; lia|].
  split; [|split].
  - rewrite Hm, !List.filter_app.
    rewrite (filter_none _ _ (column_meshes_not_panel M p)).
    rewrite (filter_none _ _ (rafter_meshes_not_panel M p)).
    rewrite (filter_none _ _ (purlin_meshes_not_panel M p)).
    rewrite (filter_none _ _ (node_trace_not_panel all_nodes)).
    rewrite (filter_all _ _ (panel_meshes_all_panel M p)).
    cbn [app]. rewrite app_nil_r, length_panel_meshes, <- Hn. lia.
  - rewrite Hm, Htr, !List.filter_app, !length_app.
    assert (Hno : forall l, List.Forall (fun x => is_scatter x = false) l ->
                            length (List.filter is_scatter l) = 0%nat).
    { intros l Hl. now rewrite (filter_none _ _ Hl). }
    rewrite (Hno (column_meshes M p)), (Hno (rafter_meshes M p)),
      (Hno (panel_meshes M p)), (Hno (purlin_meshes M p)).
    + cbn. now rewrite Hsc.
    + unfold purlin_meshes, purlins_of_row.
      repeat (apply Forall_flat_map_intro; intros ?). repeat constructor.
    + unfold panel_meshes, panels_of_copy.
      repeat (apply Forall_flat_map_intro; intros ?).
      apply Forall_map_intro; intros ?. reflexivity.
    + unfold rafter_meshes, rafters_of_copy.
      apply Forall_flat_map_intro; intros ?. apply Forall_map_intro; intros ?.
      reflexivity.
    + unfold column_meshes, columns_of_copy.
      repeat (apply Forall_flat_map_intro; intros ?). repeat constructor.
  - rewrite Hm, Htr, !length_app, length_column_meshes, length_rafter_meshes,
      length_panel_meshes, length_purlin_meshes, <- Hn. cbn [length]. lia.
Qed.

Lemma mesh_counts_witness :
  let meshes := fst (value_or ([], []) (generate_structure level_math two_copies)) in
  length (List.filter (mesh_named "Column") meshes) = 8%nat /\
  length (List.filter (mesh_named "Rafter") meshes) = 4%nat /\
  length (List.filter (mesh_named "Purlin") meshes) = 8%nat /\
  length meshes = 41%nat.
Proof.
  intros meshes.
  pose (out := value_or ([], []) (generate_structure level_math two_copies)).
  assert (E : generate_structure level_math two_copies = Ok (fst out, snd out)).
  { refine (ok_pair _ _ _ _ _); vm_compute; reflexivity. }
  destruct (mesh_counts level_math two_copies _ _ valid_two_copies E)
    as (Hc & _ & Hr & Hp & _ & _ & Hl).
  split; [exact Hc|]. split; [exact Hr|]. split; [exact Hp|]. exact Hl.
Defined.

(** ** The purlin chain *)

Lemma Forall_forallb_x (a : point) (l : list point) :
  forallb (fun q => Qle_bool (px a) (px q)) l = true -> List.Forall (x_le a) l.
Proof.
  induction l as [|q l IH]; cbn; [constructor|].
  intros H. apply andb_prop in H as [H1 H2].
  constructor; [now apply Qle_bool_iff|now apply IH].
Defined.

Lemma Forall_forallb_x' (a : point) (l : list point) :
  forallb (fun q => Qle_bool (px q) (px a)) l = true ->
  List.Forall (fun q => x_le q a) l.
Proof.
  induction l as [|q l IH]; cbn; [constructor|].
  intros H. apply andb_prop in H as [H1 H2].
  constructor; [now apply Qle_bool_iff|now apply IH].
Defined.

Lemma sorted_between (l r : point) (m : list point) :
  StronglySorted x_le m ->
  StronglySorted x_le (l :: m ++ [r])%list <->
  List.Forall (x_le l) m /\ List.Forall (fun q => x_le q r) m /\ x_le l r.
Proof.
  intros Hm. split.
  - intros Hs. inversion Hs as [|? ? Hrest Hl]; subst.
    apply List.Forall_app in Hl as [Hl Hr]. split; [exact Hl|].
    split; [|now inversion Hr].
    clear -Hrest. induction m as [|a m IH]; [constructor|].
    cbn in Hrest. inversion Hrest as [|? ? Hm Ha]; subst.
    constructor; [|now apply IH].
    apply List.Forall_app in Ha as [_ Ha]. now inversion Ha.
  - intros (Hl & Hr & Hlr).
    constructor; [|apply List.Forall_app; split; [exact Hl|repeat constructor; exact Hlr]].
    clear Hl. induction Hm as [|a m Hm IH Ha]; cbn.
    + repeat constructor.
    + inversion Hr; subst. constructor; [now apply IH|].
      apply List.Forall_app. split; [exact Ha|now repeat constructor].
Qed.

(** X12.  The point list of a purlin is its left end, then the rafter
    and panel crossings of that purlin rearranged in ascending x, then its
    right end: no crossing is lost or invented.  The whole list is
    ascending in x exactly under the condition the code does not check,
    that no crossing lies left of the left end or right of the right
    end. *)
Theorem purlin_points_order (rp pp pan : list (list (list point))) (i j : nat)
    (pts : list point) :
  one_purlin_nodes rp pp pan i j = Ok pts ->
  exists left_end right_end crossings middle,
    nth_error (nth j (nth i pp []) []) 0 = Some left_end /\
    nth_error (nth j (nth i pp []) []) 1 = Some right_end /\
    crossings = (nth j (nth i rp []) [] ++ nth j (nth i pan []) [])%list /\
    pts = (left_end :: middle ++ [right_end])%list /\
    Permutation middle crossings /\
    StronglySorted x_le middle /\
    length pts = (length crossings + 2)%nat /\
    (StronglySorted x_le pts <->
     List.Forall (x_le left_end) crossings /\
     List.Forall (fun q => x_le q right_end) crossings /\
     x_le left_end right_end).
Proof.
  unfold one_purlin_nodes. intros H.
  destruct (index pp i) as [pur_i|] eqn:E1; cbn [bind] in H; [|discriminate].
  destruct (index pur_i j) as [ends|] eqn:E2; cbn [bind] in H; [|discriminate].
  destruct (index ends 0) as [l|] eqn:E3; cbn [bind] in H; [|discriminate].
  destruct (index rp i) as [raf_i|] eqn:E4; cbn [bind] in H; [|discriminate].
  destruct (index raf_i j) as [r_p|] eqn:E5; cbn [bind] in H; [|discriminate].
  destruct (index pan i) as [pan_i|] eqn:E6; cbn [bind] in H; [|discriminate].
  destruct (index pan_i j) as [p_p|] eqn:E7; cbn [bind] in H; [|discriminate].
  destruct (concatenate r_p p_p) as [cat|] eqn:E8; cbn [bind] in H; [|discriminate].
  destruct (index ends 1) as [r|] eqn:E9; cbn [bind] in H; [|discriminate].
  injection H as <-.
  apply index_ok in E1, E2, E3, E4, E5, E6, E7, E9.
  assert (Hcat : cat = (r_p ++ p_p)%list).
  { destruct r_p, p_p; simpl in E8 |- *; congruence. }
  rewrite (nth_error_nth _ _ [] E1), (nth_error_nth _ _ [] E2),
    (nth_error_nth _ _ [] E4), (nth_error_nth _ _ [] E5),
    (nth_error_nth _ _ [] E6), (nth_error_nth _ _ [] E7).
  exists l, r, cat, (sort_by_x cat).
  split; [exact E3|]. split; [exact E9|]. split; [exact Hcat|].
  split; [reflexivity|]. split; [apply sort_by_x_perm|].
  split; [apply sort_by_x_sorted|]. split.
  - cbn [length]. rewrite length_app, (Permutation_length (sort_by_x_perm cat)).
    simpl. lia.
  - pose proof (sort_by_x_perm cat) as Hperm.
    rewrite (sorted_between l r _ (sort_by_x_sorted cat)).
    split; intros (Hl & Hr & Hlr); (split; [|split; [|exact Hlr]]).
    + exact (Permutation_Forall Hperm Hl).
    + exact (Permutation_Forall Hperm Hr).
    + exact (Permutation_Forall (Permutation_sym Hperm) Hl).
    + exact (Permutation_Forall (Permutation_sym Hperm) Hr).
Qed.

Lemma purlin_points_order_witness :
  exists pts,
    purlin_points level_math two_copies 0 0 = Ok pts /\
    length pts = 12%nat /\ StronglySorted x_le pts.
Proof.
  pose (pts := value_or [] (purlin_points level_math two_copies 0 0)).
  assert (E : purlin_points level_math two_copies 0 0 = Ok pts).
  { refine (ok_value _ _ _); vm_compute; reflexivity. }
  exists pts. split; [exact E|].
  destruct (purlin_points_order _ _ _ _ _ _ E)
    as (l & r & crossings & middle & El & Er & Ec & Ep & _ & _ & Hlen & Hiff).
  vm_compute in El. injection El as <-.
  vm_compute in Er. injection Er as <-.
  split.
  - rewrite Hlen, Ec. vm_compute. reflexivity.
  - apply Hiff. rewrite Ec. split; [|split].
    + apply Forall_forallb_x. vm_compute. reflexivity.
    + apply Forall_forallb_x'. vm_compute. reflexivity.
    + vm_compute. discriminate.
Defined.

(** ** Column rows and the rafter loop *)

Lemma for_each_app {A S : Type} (body : S -> A -> result S) (xs ys : list A) (s : S) :
  for_each (xs ++ ys) body s = (let! s1 := for_each xs body s in for_each ys body s1).
Proof.
  revert s. induction xs as [|x xs IH]; intros s; cbn; [reflexivity|].
  destruct (body s x); cbn; [apply IH|reflexivity].
Qed.

(** A loop that completes has run its body with success on each item. *)
Lemma for_each_item_ok {A S : Type} (body : S -> A -> result S) (xs : list A) :
  forall s s' x,
    for_each xs body s = Ok s' -> In x xs -> exists s1 s2, body s1 x = Ok s2.
Proof.
  induction xs as [|y xs IH]; intros s s' x H Hin; [destruct Hin|].
  cbn in H. destruct (body s y) as [s1|] eqn:E; cbn in H; [|discriminate].
  destruct Hin as [->|Hin]; [eauto|]. eapply IH; eauto.
Qed.

(** X13.  A valid parameter set with three or more rows of columns never
    completes: the rafter loop reads [column_coords[i][c]] for every
    [c < y_cols], and a column segment has two points. *)
Theorem three_column_rows_fail (M : MathModule) (p : Params) :
  valid p -> (3 <= y_cols p)%Z -> is_ok (generate_structure M p) = false.
Proof.
  intros V Hy.
  destruct (generate_structure M p) as [[meshes all_nodes]|] eqn:Hg; [|reflexivity].
  exfalso.
  apply generate_structure_run in Hg as (model & Hr).
  unfold run_structure in Hr.
  destruct (columns_stage M p); cbn [bind] in Hr; [|discriminate].
  destruct (panels_stage M p); cbn [bind] in Hr; [|discriminate].
  destruct (column_coords M p) as [cc|] eqn:Hcc; cbn [bind] in Hr; [|discriminate].
  destruct (build_model _ _ _ _ _ _ _) as [md|] eqn:Eb; cbn [bind] in Hr; [|discriminate].
  unfold build_model in Eb.
  destruct (purlin_loop _ _ _ _) as [st|]; cbn [bind] in Eb; [|discriminate].
  destruct (rafter_loop _ _ _ _ _ _) as [st'|] eqn:Er; cbn [bind] in Eb; [|discriminate].
  unfold rafter_loop in Er.
  destruct (for_each_item_ok _ _ _ _ 0%nat Er) as (s1 & s2 & Hbody).
  { apply in_seq. pose proof (valid_x_cols p V). lia. }
  unfold build_rafter in Hbody.
  destruct (rafter_crossings _ 0); cbn [bind] in Hbody; [|discriminate].
  destruct (add_column_nodes cc (fst s1) 0 (y_cols p)) as [cols|] eqn:Ec;
    cbn [bind] in Hbody; [|discriminate].
  unfold add_column_nodes in Ec.
  destruct (for_each_item_ok _ _ _ _ 2%nat Ec) as (acc1 & acc2 & Hc).
  { apply in_seq. lia. }
  destruct (index cc 0) as [seg|] eqn:Eseg; cbn [bind] in Hc; [|discriminate].
  destruct (index seg 2) as [node|] eqn:En; cbn [bind] in Hc; [|discriminate].
  apply index_ok in Eseg, En.
  destruct (column_coords_shape M p cc Hcc) as [_ Hshape].
  apply nth_error_In in Eseg.
  rewrite List.Forall_forall in Hshape. specialize (Hshape seg Eseg).
  assert (2 < length seg)%nat by (apply nth_error_Some; congruence). lia.
Qed.

Lemma valid_three_rows : valid (dashboard (4 # 10) (4 # 10) (2 # 10) (2 # 10) 2 1 2 3).
Proof. constructor; vm_compute; intuition congruence. Qed.

Lemma three_column_rows_fail_witness :
  is_ok (generate_structure level_math
           (dashboard (4 # 10) (4 # 10) (2 # 10) (2 # 10) 2 1 2 3)) = false /\
  generate_structure level_math (dashboard (4 # 10) (4 # 10) (2 # 10) (2 # 10) 2 1 2 3)
  = Raise IndexError.
Proof.
  split.
  - apply (three_column_rows_fail level_math _ valid_three_rows).
    vm_compute. discriminate.
  - vm_compute. reflexivity.
Defined.

(** ** The model stays well formed *)

Lemma well_formed_more_nodes (model model' : FEModel3D) :
  well_formed model ->
  members model' = members model ->
  (forall k pt, nodes model' !! k = Some pt -> k = node_name pt) ->
  (forall n, is_Some (nodes model !! n) -> is_Some (nodes model' !! n)) ->
  well_formed model'.
Proof.
  intros [_ Hm] Emem Hkeys Hkeep. split; [exact Hkeys|].
  intros k mem Hk. rewrite Emem in Hk.
  destruct (Hm k mem Hk) as (H1 & H2 & H3 & H4). auto.
Qed.

Lemma add_node_keys (model model' : FEModel3D) (pt : point) :
  (forall k q, nodes model !! k = Some q -> k = node_name q) ->
  add_node model (node_name pt) pt = Ok model' ->
  forall k q, nodes model' !! k = Some q -> k = node_name q.
Proof.
  intros Hkeys H k q Hk. apply add_node_ok in H as (_ & Hn & _).
  rewrite Hn in Hk. destruct (decide (node_name pt = k)) as [<-|Hne].
  - rewrite lookup_insert_eq in Hk. now injection Hk as <-.
  - rewrite lookup_insert_ne in Hk by exact Hne. eauto.
Qed.

Lemma add_purlin_nodes_keys (pts : list point) :
  forall (model : FEModel3D) (acc : list string),
    (forall k q, nodes model !! k = Some q -> k = node_name q) ->
    forall k q, nodes (fst (add_purlin_nodes model pts acc)) !! k = Some q ->
                k = node_name q.
Proof.
  induction pts as [|pt rest IH]; intros model acc Hkeys; cbn; [exact Hkeys|].
  destruct (add_node model (node_name pt) pt) as [model'|] eqn:E.
  - apply IH. eapply add_node_keys; eauto.
  - now apply IH.
Qed.

Lemma add_member_chain_well_formed (material section : string) (rot : Q)
    (names : list string) :
  forall model model',
    well_formed model -> NoDup names ->
    (forall n, n ∈ names -> is_Some (nodes model !! n)) ->
    add_member_chain model names material section rot = Ok model' ->
    well_formed model' /\ nodes model' = nodes model.
Proof.
  induction names as [|a [|b rest] IH]; intros model model' Hwf Hnd Hreg H.
  - injection H as <-. auto.
  - injection H as <-. auto.
  - change (add_member_chain model (a :: b :: rest) material section rot)
      with (let! model1 := add_member model (member_name a b)
                             {| i_node := a; j_node := b; material_name := material;
                                section_name := section; rotation := rot |} in
            add_member_chain model1 (b :: rest) material section rot) in H.
    destruct (add_member model (member_name a b) _) as [model1|] eqn:E;
      cbn [bind] in H; [|discriminate].
    apply add_member_ok in E as (Hfresh & Hnodes & Hmem).
    assert (Hab : a <> b).
    { intros ->. apply NoDup_cons in Hnd as [Hnot _]. apply Hnot. constructor. }
    assert (Hwf1 : well_formed model1).
    { destruct Hwf as [Hk Hm]. split.
      - intros k pt Hkp. rewrite Hnodes in Hkp. eauto.
      - intros k mem Hkm. rewrite Hmem in Hkm. rewrite Hnodes.
        destruct (decide (member_name a b = k)) as [<-|Hne].
        + rewrite lookup_insert_eq in Hkm. injection Hkm as <-. cbn.
          repeat split; [apply Hreg; constructor| |exact Hab].
          apply Hreg. constructor. constructor.
        + rewrite lookup_insert_ne in Hkm by exact Hne. eauto. }
    destruct (IH model1 model' Hwf1) as [Hwf' Hn']; [| |exact H|].
    + now apply NoDup_cons in Hnd as [_ Hnd].
    + intros n Hn. rewrite Hnodes. apply Hreg. now constructor.
    + split; [exact Hwf'|congruence].
Qed.

Lemma build_purlin_ready (rp pp pan : list (list (list point))) (purlin_angle : Q)
    (st st' : builder_state) (ij : nat * nat) :
  chain_ready st -> build_purlin rp pp pan purlin_angle st ij = Ok st' ->
  chain_ready st'.
Proof.
  intros [Hwf _]. unfold build_purlin.
  destruct (one_purlin_nodes rp pp pan (fst ij) (snd ij)) as [pts|]; cbn [bind];
    [|discriminate].
  destruct (add_member_chain _ _ _ _ _) as [model|] eqn:E; cbn [bind]; [|discriminate].
  intros H. injection H as <-.
  destruct (add_purlin_nodes_spec pts (fst st) []) as (Hnd & Hreg & Hkeep & Hmem);
    [constructor|intros n Hn; inversion Hn|].
  assert (Hwf1 : well_formed (fst (add_purlin_nodes (fst st) pts []))).
  { apply (well_formed_more_nodes (fst st)); auto.
    apply add_purlin_nodes_keys. apply Hwf. }
  destruct (add_member_chain_well_formed _ _ _ _ _ _ Hwf1 Hnd Hreg E) as [Hwf' Hn].
  split; [exact Hwf'|]. cbn. intros names Hs. injection Hs as <-.
  split; [exact Hnd|]. intros n Hin. rewrite Hn. now apply Hreg.
Qed.

Lemma add_column_nodes_well_formed (cc : list (list point)) (i : nat)
    (y_cols_count : Z) (model : FEModel3D) (r : FEModel3D * list point) :
  well_formed model ->
  add_column_nodes cc model i y_cols_count = Ok r ->
  well_formed (fst r) /\
  forall n, is_Some (nodes model !! n) -> is_Some (nodes (fst r) !! n).
Proof.
  intros Hwf. unfold add_column_nodes.
  apply (for_each_inv (fun acc : FEModel3D * list point =>
           well_formed (fst acc) /\
           forall n, is_Some (nodes model !! n) -> is_Some (nodes (fst acc) !! n)));
    [|now split].
  intros acc c acc' [Hacc Hkeep] H.
  destruct (index cc i) as [seg|]; cbn [bind] in H; [|discriminate].
  destruct (index seg c) as [column_node|]; cbn [bind] in H; [|discriminate].
  destruct (add_node (fst acc) (node_name column_node) column_node) as [model'|] eqn:E;
    cbn [bind] in H; [|discriminate].
  injection H as <-. cbn [fst].
  pose proof (add_node_keys _ _ _ (proj1 Hacc) E) as Hkeys.
  apply add_node_ok in E as (_ & Hn & Hm).
  assert (Hmore : forall n, is_Some (nodes (fst acc) !! n) -> is_Some (nodes model' !! n)).
  { intros n Hin. rewrite Hn. apply lookup_insert_is_Some'. now right. }
  split; [|auto].
  now apply (well_formed_more_nodes (fst acc)).
Qed.

Lemma build_rafter_ready (rp : list (list (list point))) (cc : list (list point))
    (y_cols_count : Z) (rafter_angle : Q) (st st' : builder_state) (i : nat) :
  chain_ready st -> build_rafter rp cc y_cols_count rafter_angle st i = Ok st' ->
  chain_ready st'.
Proof.
  intros [Hwf Hnames]. unfold build_rafter.
  destruct (rafter_crossings rp i); cbn [bind]; [|discriminate].
  destruct (add_column_nodes cc (fst st) i y_cols_count) as [cols|] eqn:Ec;
    cbn [bind]; [|discriminate].
  destruct (add_column_nodes_well_formed _ _ _ _ _ Hwf Ec) as [Hwf1 Hkeep].
  destruct (snd st) as [names|]; [|discriminate].
  destruct (Hnames names eq_refl) as [Hnd Hreg].
  destruct (add_member_chain _ _ _ _ _) as [model|] eqn:E; cbn [bind]; [|discriminate].
  intros H. injection H as <-.
  destruct (add_member_chain_well_formed _ _ _ _ _ _ Hwf1 Hnd
              (fun n Hn => Hkeep n (Hreg n Hn)) E) as [Hwf' Hn].
  split; [exact Hwf'|]. cbn. intros names' Hs. injection Hs as <-.
  split; [exact Hnd|]. intros n Hin. rewrite Hn. auto.
Qed.

(** X14.  The structural model of a completed call is well formed: every
    node is stored under the name formatted from its own coordinates,
    every member under the name formed from its two end names, and every
    member joins two different nodes that are in the model. *)
Theorem completed_model_well_formed (M : MathModule) (p : Params)
    (meshes : list primitive) (all_nodes : list point) (model : FEModel3D) :
  run_structure M p = Ok (meshes, all_nodes, model) -> well_formed model.
Proof.
  unfold run_structure. intros H.
  destruct (columns_stage M p); cbn [bind] in H; [|discriminate].
  destruct (panels_stage M p); cbn [bind] in H; [|discriminate].
  destruct (column_coords M p) as [cc|]; cbn [bind] in H; [|discriminate].
  destruct (build_model _ _ _ _ _ _ _) as [md|] eqn:Eb; cbn [bind] in H; [|discriminate].
  injection H as _ _ <-. unfold build_model in Eb.
  destruct (purlin_loop _ _ _ _) as [st|] eqn:Ep; cbn [bind] in Eb; [|discriminate].
  destruct (rafter_loop _ _ _ _ _ _) as [st'|] eqn:Er; cbn [bind] in Eb; [|discriminate].
  injection Eb as <-.
  assert (Hst : chain_ready st).
  { unfold purlin_loop in Ep.
    eapply (for_each_inv chain_ready); [|split|exact Ep].
    - intros s x s'. apply build_purlin_ready.
    - split; cbn; intros k x Hk; now rewrite lookup_empty in Hk.
    - cbn. discriminate. }
  assert (Hst' : chain_ready st').
  { unfold rafter_loop in Er.
    eapply (for_each_inv chain_ready); [|exact Hst|exact Er].
    intros s x s'. apply build_rafter_ready. }
  apply Hst'.
Qed.

Lemma completed_model_well_formed_witness :
  well_formed (snd (value_or ([], [], empty_model) (run_structure level_math two_copies))).
Proof.
  refine (completed_model_well_formed level_math two_copies _ _ _ _).
  refine (ok_triple _ _ _); vm_compute; reflexivity.
Defined.

Lemma completed_run_has_no_rafter_member_witness :
  members_of_material
    (snd (value_or ([], [], empty_model) (run_structure level_math two_copies)))
    "rafter_mat" = [].
Proof.
  refine (proj2 (completed_run_has_no_rafter_member level_math two_copies _ _ _ _)).
  refine (ok_triple _ _ _); vm_compute; reflexivity.
Defined.

(** ** A purlin that repeats an earlier one *)

Lemma add_purlin_nodes_known (pts : list point) (model : FEModel3D) (acc : list string) :
  all_registered model pts -> add_purlin_nodes model pts acc = (model, acc).
Proof.
  induction pts as [|pt rest IH]; intros Hreg; cbn; [reflexivity|].
  rewrite (add_node_taken _ _ _ (Hreg pt (or_introl eq_refl))).
  apply IH. intros q Hq. apply Hreg. now right.
Qed.

Lemma add_purlin_nodes_keeps (pts : list point) (n : string) :
  forall (model : FEModel3D) (acc : list string),
    is_Some (nodes model !! n) ->
    is_Some (nodes (fst (add_purlin_nodes model pts acc)) !! n).
Proof.
  induction pts as [|r rest IH]; intros model acc Hin; cbn; [exact Hin|].
  destruct (add_node model (node_name r) r) as [model'|] eqn:E; [|now apply IH].
  apply IH. apply add_node_ok in E as (_ & Hn & _). rewrite Hn.
  apply lookup_insert_is_Some'. now right.
Qed.

Lemma add_purlin_nodes_covers (pts : list point) :
  forall (model : FEModel3D) (acc : list string),
    all_registered (fst (add_purlin_nodes model pts acc)) pts.
Proof.
  induction pts as [|pt rest IH]; intros model acc q Hq; [destruct Hq|].
  cbn. destruct (add_node model (node_name pt) pt) as [model'|] eqn:E.
  - destruct Hq as [<-|Hq]; [|now apply IH].
    apply add_purlin_nodes_keeps.
    apply add_node_ok in E as (_ & Hn & _).
    rewrite Hn. apply lookup_insert_is_Some'. now left.
  - destruct Hq as [<-|Hq]; [|now apply IH].
    apply add_purlin_nodes_keeps.
    unfold add_node in E. destruct (nodes model !! node_name pt); [eauto|discriminate].
Qed.

Lemma add_member_chain_nodes (material section : string) (rot : Q) (names : list string) :
  forall model model',
    add_member_chain model names material section rot = Ok model' ->
    nodes model' = nodes model.
Proof.
  induction names as [|a [|b rest] IH]; intros model model' H.
  - now injection H as <-.
  - now injection H as <-.
  - change (add_member_chain model (a :: b :: rest) material section rot)
      with (let! model1 := add_member model (member_name a b)
                             {| i_node := a; j_node := b; material_name := material;
                                section_name := section; rotation := rot |} in
            add_member_chain model1 (b :: rest) material section rot) in H.
    destruct (add_member model (member_name a b) _) as [model1|] eqn:E;
      cbn [bind] in H; [|discriminate].
    apply add_member_ok in E as (_ & Hnodes & _).
    rewrite (IH _ _ H). exact Hnodes.
Qed.

Section Repeats.

Variable rp pp pan : list (list (list point)).
Variable purlin_angle : Q.

Lemma build_purlin_registers (st st' : builder_state) (ij : nat * nat) :
  build_purlin rp pp pan purlin_angle st ij = Ok st' ->
  (forall n, is_Some (nodes (fst st) !! n) -> is_Some (nodes (fst st') !! n)) /\
  forall pts, one_purlin_nodes rp pp pan (fst ij) (snd ij) = Ok pts ->
              all_registered (fst st') pts.
Proof.
  unfold build_purlin.
  destruct (one_purlin_nodes rp pp pan (fst ij) (snd ij)) as [pts|]; cbn [bind];
    [|discriminate].
  destruct (add_member_chain _ _ _ _ _) as [model|] eqn:E; cbn [bind]; [|discriminate].
  intros H. injection H as <-. cbn [fst].
  apply add_member_chain_nodes in E. split.
  - intros n Hn. rewrite E. now apply add_purlin_nodes_keeps.
  - intros pts' Hp pt Hpt. injection Hp as <-. rewrite E.
    now apply add_purlin_nodes_covers.
Qed.

Lemma build_purlin_known (st : builder_state) (ij : nat * nat) (pts : list point) :
  one_purlin_nodes rp pp pan (fst ij) (snd ij) = Ok pts ->
  all_registered (fst st) pts ->
  build_purlin rp pp pan purlin_angle st ij = Ok (fst st, Some []).
Proof.
  intros Hp Hreg. unfold build_purlin. rewrite Hp. cbn [bind].
  now rewrite (add_purlin_nodes_known pts (fst st) [] Hreg).
Qed.

(** X15.  Chaining a purlin whose points are all nodes of the model
    already leaves the model as it is and [node_names] empty; and that is
    the case of every purlin chained a second time: its points were made
    nodes the first time, and nodes are never removed. *)
Theorem repeated_purlin_adds_nothing (st st1 st2 : builder_state) (ij ij' : nat * nat) :
  build_purlin rp pp pan purlin_angle st ij = Ok st1 ->
  build_purlin rp pp pan purlin_angle st1 ij' = Ok st2 ->
  build_purlin rp pp pan purlin_angle st1 ij = Ok (fst st1, Some []) /\
  build_purlin rp pp pan purlin_angle st2 ij = Ok (fst st2, Some []).
Proof.
  intros H1 H2.
  destruct (one_purlin_nodes rp pp pan (fst ij) (snd ij)) as [pts|] eqn:Hp.
  - destruct (build_purlin_registers _ _ _ H1) as [_ Hreg].
    destruct (build_purlin_registers _ _ _ H2) as [Hkeep _].
    specialize (Hreg pts Hp). split; [now apply (build_purlin_known _ _ pts)|].
    apply (build_purlin_known _ _ pts Hp). intros pt Hpt. now apply Hkeep, Hreg.
  - unfold build_purlin in H1. rewrite Hp in H1. discriminate.
Qed.

End Repeats.

Lemma repeated_purlin_adds_nothing_witness :
  let rp := raf_pur_inter_points level_math two_copies in
  let pp := pur_points level_math two_copies in
  let pan := pur_pan_inter_points level_math two_copies in
  let st1 := value_or (empty_model, None)
               (build_purlin rp pp pan 90 (empty_model, None) (0, 0)%nat) in
  let st2 := value_or (empty_model, None) (build_purlin rp pp pan 90 st1 (0, 1)%nat) in
  build_purlin rp pp pan 90 st2 (0, 0)%nat = Ok (fst st2, Some []).
Proof.
  intros rp pp pan st1 st2.
  refine (proj2 (repeated_purlin_adds_nothing rp pp pan 90 (empty_model, None)
                   st1 st2 (0, 0)%nat (0, 1)%nat _ _)).
  - refine (ok_value _ _ _); vm_compute; reflexivity.
  - refine (ok_value _ _ _); vm_compute; reflexivity.
Defined.

(** ** The purlins of the later array copies *)

Lemma repeat_block_comm {A C : Type} (B : list A) (l : list C) :
  (flat_map (fun _ : C => B) l ++ B = B ++ flat_map (fun _ : C => B) l)%list.
Proof.
  induction l as [|a l IH]; cbn; [now rewrite app_nil_r|].
  now rewrite <- app_assoc, IH.
Qed.

Lemma nth_error_repeat_block {A C : Type} (B : list A) (l : list C) (k r : nat) :
  length B = r -> (k + r < length l * r)%nat ->
  nth_error (flat_map (fun _ : C => B) l) (k + r)
  = nth_error (flat_map (fun _ : C => B) l) k.
Proof.
  intros HB Hk. destruct l as [|a l]; [cbn in Hk; lia|]. cbn [flat_map].
  rewrite nth_error_app2 by lia.
  replace (k + r - length B)%nat with k by lia.
  rewrite <- repeat_block_comm, nth_error_app1; [reflexivity|].
  rewrite (length_flat_map_const _ r) by (intros _; exact HB). cbn in Hk. lia.
Qed.

Lemma flat_map_ext_in {A B : Type} (f g : A -> list B) (l : list A) :
  (forall a, In a l -> f a = g a) -> flat_map f l = flat_map g l.
Proof.
  induction l as [|a l IH]; intros H; cbn; [reflexivity|].
  rewrite (H a (or_introl eq_refl)), IH; [reflexivity|].
  intros b Hb. apply H. now right.
Qed.

Lemma purlin_indices_pairs (pp : list (list (list point))) :
  List.Forall (fun e => length e = 2%nat) pp ->
  purlin_indices pp
  = flat_map (fun i => [(i, 0%nat); (i, 1%nat)]) (seq 0 (length pp)).
Proof.
  intros Hpp. unfold purlin_indices. apply flat_map_ext_in. intros i Hi.
  apply in_seq in Hi. rewrite List.Forall_forall in Hpp.
  rewrite (Hpp (nth i pp [])); [reflexivity|]. apply nth_In. lia.
Qed.

Section LaterCopies.

Variable rp pp pan : list (list (list point)).
Variable purlin_angle : Q.

Lemma purlin_loop_keeps (xs : list (nat * nat)) (s s' : builder_state) (n : string) :
  for_each xs (build_purlin rp pp pan purlin_angle) s = Ok s' ->
  is_Some (nodes (fst s) !! n) -> is_Some (nodes (fst s') !! n).
Proof.
  intros H Hn. revert H.
  apply (for_each_inv (fun st : builder_state => is_Some (nodes (fst st) !! n)));
    [|exact Hn].
  intros st x st' Hst Hb. now apply (build_purlin_registers _ _ _ _ _ _ _ Hb).
Qed.

Lemma purlin_loop_registers (xs : list (nat * nat)) :
  forall (s s' : builder_state) (ij : nat * nat) (pts : list point),
    for_each xs (build_purlin rp pp pan purlin_angle) s = Ok s' ->
    In ij xs ->
    one_purlin_nodes rp pp pan (fst ij) (snd ij) = Ok pts ->
    all_registered (fst s') pts.
Proof.
  induction xs as [|x xs IH]; intros s s' ij pts H Hin Hp; [destruct Hin|].
  cbn in H.
  destruct (build_purlin rp pp pan purlin_angle s x) as [s1|] eqn:E; cbn [bind] in H;
    [|discriminate].
  destruct Hin as [->|Hin]; [|eapply IH; eauto].
  intros pt Hpt. apply (purlin_loop_keeps _ _ _ _ H).
  now apply (proj2 (build_purlin_registers _ _ _ _ _ _ _ E) pts Hp).
Qed.

End LaterCopies.

(** X16.  With two or more array copies and at least one row, the purlin
    loop, when it completes, leaves [node_names] empty: the purlins take
    no array-copy offset, so the last purlin repeats the last purlin of
    the copy before and all its points are nodes already. *)
Theorem later_copies_leave_no_names (M : MathModule) (p : Params) (st : builder_state) :
  (2 <= length (copies p))%nat -> (1 <= rows p)%Z ->
  purlins_built M p = Ok st -> snd st = Some [].
Proof.
  intros Hn Hrows. unfold purlins_built, purlin_loop.
  set (rp := raf_pur_inter_points M p). set (pp := pur_points M p).
  set (pan := pur_pan_inter_points M p). set (a := angle p + 90).
  set (R := Z.to_nat (rows p)).
  assert (HR : (1 <= R)%nat) by (unfold R; lia).
  assert (Hlen : length pp = (length (copies p) * R)%nat)
    by apply length_rows_of_copies.
  rewrite purlin_indices_pairs
    by (apply Forall_rows_of_copies; intros row; reflexivity).
  destruct (length pp) as [|L'] eqn:EL; [nia|].
  rewrite seq_S, flat_map_app, for_each_app. cbn [flat_map app Nat.add].
  match goal with
  | |- context [for_each ?xs ?body ?s0] =>
      destruct (for_each xs body s0) as [s1|] eqn:E1; cbn [bind]; [|discriminate]
  end.
  cbn [for_each].
  destruct (build_purlin rp pp pan a s1 (L', 0%nat)) as [s2|] eqn:E2; cbn [bind];
    [|discriminate].
  destruct (build_purlin rp pp pan a s2 (L', 1%nat)) as [s3|] eqn:E3; cbn [bind];
    [|discriminate].
  intros H. injection H as <-.
  destruct (one_purlin_nodes rp pp pan L' 1) as [pts|] eqn:Hp.
  2:{ unfold build_purlin in E3. cbn [fst snd] in E3. rewrite Hp in E3. discriminate. }
  assert (Hearlier : one_purlin_nodes rp pp pan (L' - R) 1 = Ok pts).
  { rewrite <- Hp. replace L' with (L' - R + R)%nat at 2 by nia.
    unfold one_purlin_nodes, index, rp, pp, pan, raf_pur_inter_points, pur_points,
      pur_pan_inter_points.
    rewrite !(nth_error_repeat_block _ (copies p) (L' - R) R);
      try (now rewrite length_map, length_range); try nia.
    reflexivity. }
  assert (Hreg : all_registered (fst s2) pts).
  { intros pt Hpt.
    apply (proj1 (build_purlin_registers _ _ _ _ _ _ _ E2)).
    apply (purlin_loop_registers rp pp pan a _ _ _ (L' - R, 1)%nat pts E1);
      [|exact Hearlier|exact Hpt].
    apply in_flat_map. exists (L' - R)%nat. split; [|cbn; auto].
    apply in_seq. nia. }
  rewrite (build_purlin_known rp pp pan a s2 (L', 1%nat) pts Hp Hreg) in E3.
  now injection E3 as <-.
Qed.

Lemma later_copies_leave_no_names_witness :
  snd (value_or (empty_model, None) (purlins_built level_math two_copies)) = Some [].
Proof.
  refine (later_copies_leave_no_names level_math two_copies _ _ _ _).
  - vm_compute. lia.
  - vm_compute. discriminate.
  - refine (ok_value _ _ _); vm_compute; reflexivity.
Defined.

(** ** The builders *)

Lemma skipn_nth_error {A : Type} (l : list A) (k : nat) (x : A) :
  nth_error l k = Some x -> skipn k l = x :: skipn (S k) l.
Proof.
  revert k. induction l as [|a l IH]; intros [|k] H; try discriminate.
  - now injection H as <-.
  - cbn in H. cbn [skipn]. now rewrite (IH k H).
Qed.

Lemma nth_error_combine {A B : Type} (la : list A) (lb : list B) (k : nat) (a : A) (b : B) :
  nth_error la k = Some a -> nth_error lb k = Some b ->
  nth_error (combine la lb) k = Some (a, b).
Proof.
  revert lb k. induction la as [|x la IH]; intros [|y lb] [|k] Ha Hb; try discriminate.
  - cbn in *. congruence.
  - cbn in *. now apply IH.
Qed.

Lemma rotation_loop_steps (rot_tup : list (Z * Z * Z)) (tilt_angle : list Q) (m : nat) :
  forall (k : nat) (done : list ((Z * Z * Z) * Q)),
    (k + m <= length rot_tup)%nat -> (k + m <= length tilt_angle)%nat ->
    for_each (seq k m)
      (fun done i =>
         let! axis := index rot_tup i in
         let! degrees := index tilt_angle i in
         Ok (done ++ [(axis, degrees)])%list)
      done
    = Ok (done ++ firstn m (skipn k (combine rot_tup tilt_angle)))%list.
Proof.
  induction m as [|m IH]; intros k done Hr Ht; cbn [seq for_each].
  - cbn. now rewrite app_nil_r.
  - destruct (nth_error rot_tup k) as [axis|] eqn:Er;
      [|apply nth_error_None in Er; lia].
    destruct (nth_error tilt_angle k) as [degrees|] eqn:Et;
      [|apply nth_error_None in Et; lia].
    unfold index at 1 2. rewrite Er, Et. cbn [bind].
    rewrite IH by lia.
    rewrite (skipn_nth_error _ _ _ (nth_error_combine _ _ _ _ _ Er Et)).
    cbn [firstn]. now rewrite <- app_assoc.
Qed.

(** X17.  The rotation loop of the two builders runs once per tilt
    angle.  With at least as many axes as angles it applies the angles
    paired with the axes in order, ignoring any axis left over, and with
    no angle it applies nothing; with fewer axes than angles it raises
    [IndexError]. *)
Theorem rotation_loop_lengths (rot_tup : list (Z * Z * Z)) (tilt_angle : list Q) :
  ((length tilt_angle <= length rot_tup)%nat ->
   rotation_loop rot_tup tilt_angle = Ok (rotations rot_tup tilt_angle) /\
   length (rotations rot_tup tilt_angle) = length tilt_angle) /\
  ((length rot_tup < length tilt_angle)%nat ->
   rotation_loop rot_tup tilt_angle = Raise IndexError) /\
  rotation_loop rot_tup [] = Ok [].
Proof.
  split; [|split; [|reflexivity]].
  - intros Hle. unfold rotation_loop, rotations.
    assert (Hlen : length (combine rot_tup tilt_angle) = length tilt_angle).
    { rewrite length_combine. lia. }
    rewrite rotation_loop_steps by (cbn; lia). cbn [skipn app].
    rewrite <- Hlen at 1. now rewrite firstn_all.
  - intros Hlt. unfold rotation_loop.
    replace (length tilt_angle)
      with (length rot_tup + S (length tilt_angle - length rot_tup - 1))%nat by lia.
    rewrite seq_app, for_each_app, rotation_loop_steps by (cbn; lia).
    cbn [bind Nat.add seq for_each]. unfold index at 1.
    now rewrite (proj2 (nth_error_None rot_tup (length rot_tup)) (Nat.le_refl _)).
Qed.

Lemma rotation_loop_lengths_witness :
  rotation_loop [(0, 1, 0)%Z; (1, 0, 0)%Z] [90; 120]
  = Ok [((0, 1, 0)%Z, 90); ((1, 0, 0)%Z, 120)] /\
  rotation_loop [(1, 0, 0)%Z] [90; 120] = Raise IndexError.
Proof.
  destruct (rotation_loop_lengths [(0, 1, 0)%Z; (1, 0, 0)%Z] [90; 120]) as (H1 & _).
  destruct (rotation_loop_lengths [(1, 0, 0)%Z] [90; 120]) as (_ & H2 & _).
  split; [apply H1; cbn; lia|apply H2; cbn; lia].
Defined.



(** ** The array copies, and the earlier generator *)

Lemma Forall2_flat_map_intro {A B : Type} (R : B -> B -> Prop) (f g : A -> list B)
    (l : list A) :
  (forall a, List.Forall2 R (f a) (g a)) -> List.Forall2 R (flat_map f l) (flat_map g l).
Proof.
  intros H. induction l as [|a l IH]; cbn; [constructor|].
  apply Forall2_app; [apply H|exact IH].
Qed.

Lemma Forall2_map_intro {A B : Type} (R : B -> B -> Prop) (f g : A -> B) (l : list A) :
  (forall a, R (f a) (g a)) -> List.Forall2 R (List.map f l) (List.map g l).
Proof.
  intros H. induction l as [|a l IH]; cbn; constructor; [apply H|exact IH].
Qed.

Lemma moved_by_centre (dx dy : Q) (ma mb : Mesh) :
  px (m_center mb) == px (m_center ma) + dx ->
  py (m_center mb) == py (m_center ma) + dy ->
  pz (m_center mb) = pz (m_center ma) ->
  m_name mb = m_name ma -> m_color mb = m_color ma ->
  m_profile mb = m_profile ma -> m_length mb = m_length ma ->
  m_width mb = m_width ma -> m_height mb = m_height ma ->
  m_rotations mb = m_rotations ma ->
  moved_by dx dy (Mesh3d ma) (Mesh3d mb).
Proof. cbn. tauto. Qed.

Ltac moved :=
  apply moved_by_centre; try reflexivity; unfold px, py; cbn [m_center fst snd]; ring.

(** X19.  In both generators every column, block, rafter and panel of the
    array copy (i, j) is the matching mesh of copy (0, 0) with its centre
    moved by (i * x_gap, j * y_gap) and nothing else changed; in the
    earlier generator the same holds of the purlins. *)
Theorem array_copies_are_translates (M : MathModule) (p : Params) (i j : Z) :
  let moved := moved_by (x_gap p * inject_Z i) (y_gap p * inject_Z j) in
  List.Forall2 moved (columns_of_copy M p (0, 0)%Z) (columns_of_copy M p (i, j)) /\
  List.Forall2 moved (rafters_of_copy M p (0, 0)%Z) (rafters_of_copy M p (i, j)) /\
  List.Forall2 moved (panels_of_copy M p (0, 0)%Z) (panels_of_copy M p (i, j)) /\
  List.Forall2 moved (Backup.panels_of_copy M p (0, 0)%Z)
               (Backup.panels_of_copy M p (i, j)) /\
  List.Forall2 moved (Backup.purlins_of_copy M p (0, 0)%Z)
               (Backup.purlins_of_copy M p (i, j)).
Proof.
  cbv zeta. repeat split.
  - unfold columns_of_copy. apply Forall2_flat_map_intro. intros y_i.
    apply Forall2_flat_map_intro. intros x_i. cbn [fst snd].
    constructor; [|constructor; [|constructor]].
    + unfold column_mesh, create_c_section_cq. moved.
    + unfold block_mesh, create_component_cq. moved.
  - unfold rafters_of_copy. apply Forall2_map_intro. intros x_i. cbn [fst snd].
    unfold rafter_mesh, create_c_section_cq. moved.
  - unfold panels_of_copy. apply Forall2_flat_map_intro. intros c.
    apply Forall2_map_intro. intros r. cbn [fst snd].
    unfold panel_mesh, create_component_cq. moved.
  - unfold Backup.panels_of_copy. apply Forall2_flat_map_intro. intros r.
    apply Forall2_map_intro. intros c. cbn [fst snd].
    unfold panel_mesh, create_component_cq. moved.
  - unfold Backup.purlins_of_copy. apply Forall2_flat_map_intro. intros row.
    cbn [fst snd]. constructor; [|constructor; [|constructor]];
      unfold Backup.purlin_mesh, create_c_section_cq; moved.
Qed.

Lemma flat_map_cons_perm {A B : Type} (g : A -> B) (h : A -> list B) (l : list A) :
  Permutation (flat_map (fun a => g a :: h a) l) (List.map g l ++ flat_map h l).
Proof.
  induction l as [|a l IH]; cbn; [constructor|].
  constructor. rewrite IH. rewrite !app_assoc.
  apply Permutation_app_tail, Permutation_app_comm.
Qed.

Lemma loops_swapped {A B C : Type} (f : A -> B -> C) (la : list A) (lb : list B) :
  Permutation (flat_map (fun a => List.map (f a) lb) la)
              (flat_map (fun b => List.map (fun a => f a b) la) lb).
Proof.
  induction la as [|a la IH]; cbn.
  - induction lb as [|b lb IHb]; cbn; [constructor|exact IHb].
  - rewrite IH. symmetry. apply (flat_map_cons_perm (f a)).
Qed.

Lemma flat_map_perm {A B : Type} (f g : A -> list B) (l : list A) :
  (forall a, Permutation (f a) (g a)) -> Permutation (flat_map f l) (flat_map g l).
Proof.
  intros H. induction l as [|a l IH]; cbn; [constructor|].
  now apply Permutation_app.
Qed.

(** X20.  The current generator against the earlier one.  It builds the
    same panels, appended column by column where the earlier one went row
    by row.  Each of its purlins stands where the earlier generator put
    the purlin of array copy (0, 0): the purlins of copy (i, j) of the
    earlier generator are the current ones moved by the copy's offset.
    A call of the current generator that completes returns the meshes of
    the earlier one in number, plus the node trace. *)
Theorem current_against_backup (M : MathModule) (p : Params) :
  Permutation (Backup.panel_meshes M p) (panel_meshes M p) /\
  (forall i j,
     List.Forall2 (moved_by (x_gap p * inject_Z i) (y_gap p * inject_Z j))
                  (flat_map (purlins_of_row M p) (range (rows p)))
                  (Backup.purlins_of_copy M p (i, j))) /\
  (forall meshes all_nodes,
     generate_structure M p = Ok (meshes, all_nodes) ->
     length meshes
     = (length (Backup.generate_structure M p) + length (node_trace all_nodes))%nat).
Proof.
  split; [|split].
  - unfold Backup.panel_meshes, panel_meshes. apply flat_map_perm. intros ij.
    unfold Backup.panels_of_copy, panels_of_copy.
    apply (loops_swapped (fun r c => panel_mesh M p (fst ij) (snd ij) c r)).
  - intros i j. unfold Backup.purlins_of_copy. apply Forall2_flat_map_intro.
    intros row. cbn [fst snd]. unfold purlins_of_row.
    constructor; [|constructor; [|constructor]];
      unfold purlin_mesh, Backup.purlin_mesh, create_c_section_cq;
      apply moved_by_centre; try reflexivity; unfold px, py, purlin_cx, perlin_height;
      cbn [m_center fst snd]; try ring.
  - intros meshes all_nodes H.
    apply generate_structure_run in H as (model & H).
    apply run_structure_meshes in H as (cc & _ & _ & ->).
    unfold Backup.generate_structure. rewrite !length_app.
    assert (Hpan : length (Backup.panel_meshes M p) = length (panel_meshes M p)).
    { apply Permutation_length.
      unfold Backup.panel_meshes, panel_meshes. apply flat_map_perm. intros ij.
      apply (loops_swapped (fun r c => panel_mesh M p (fst ij) (snd ij) c r)). }
    assert (Hpur : length (Backup.purlin_meshes M p) = length (purlin_meshes M p)).
    { unfold Backup.purlin_meshes, purlin_meshes.
      rewrite (length_flat_map_const _ (length (range (rows p)) * 2) (copies p)).
      - now rewrite (length_flat_map_const _ (length (range (rows p)) * 2) (copies p))
          by (intros ij; apply length_flat_map_const; reflexivity).
      - intros ij. apply length_flat_map_const. reflexivity. }
    rewrite Hpan, Hpur. lia.
Qed.

Lemma current_against_backup_witness :
  length (fst (value_or ([], []) (generate_structure level_math two_copies)))
  = (length (Backup.generate_structure level_math two_copies)
     + length (node_trace (snd (value_or ([], []) (generate_structure level_math two_copies)))))%nat.
Proof.
  refine (proj2 (proj2 (current_against_backup level_math two_copies)) _ _ _).
  refine (ok_pair _ _ _ _ _); [vm_compute; reflexivity|reflexivity].
Defined.

(** ** The wind load *)

Lemma square_le (a b : Q) : 0 <= a -> a <= b -> a * a <= b * b.
Proof.
  intros Ha Hab. nra.
Qed.

(** X21.  The velocity pressure shown by the dashboard is the product of
    the four factors, the square of the wind speed in km/h and the
    constant 0.613 / 3.6^2 = 613/12960.  Scaling the wind speed by [k]
    scales the pressure by [k^2].  With factors that are not negative the
    pressure is not negative and grows with the wind speed. *)
Theorem wind_pressure_law (ke kz kzt kd v : Q) :
  velocity_pressure ke kz kzt kd v == (613 # 12960) * ke * kz * kzt * kd * (v * v) /\
  (forall k, velocity_pressure ke kz kzt kd (k * v)
             == k * k * velocity_pressure ke kz kzt kd v) /\
  (0 <= ke -> 0 <= kz -> 0 <= kzt -> 0 <= kd ->
   0 <= velocity_pressure ke kz kzt kd v /\
   (forall v', 0 <= v -> v <= v' ->
               velocity_pressure ke kz kzt kd v <= velocity_pressure ke kz kzt kd v')).
Proof.
  assert (Hform : forall w, velocity_pressure ke kz kzt kd w
                            == (613 # 12960) * (ke * kz * (kzt * kd)) * (w * w)).
  { intros w. unfold velocity_pressure, velocity_mps. simpl Qpower. field. }
  split; [rewrite Hform; ring|]. split; [intros k; rewrite !Hform; ring|].
  intros Hke Hkz Hkzt Hkd.
  assert (Hf : 0 <= (613 # 12960) * (ke * kz * (kzt * kd))).
  { apply Qmult_le_0_compat; [discriminate|].
    apply Qmult_le_0_compat; apply Qmult_le_0_compat; assumption. }
  split.
  - rewrite Hform. apply Qmult_le_0_compat; [exact Hf|].
    nra.
  - intros v' Hv Hvv'. rewrite !Hform.
    rewrite !(Qmult_comm ((613 # 12960) * (ke * kz * (kzt * kd)))).
    apply Qmult_le_compat_r; [|exact Hf]. now apply square_le.
Qed.

Lemma wind_pressure_law_witness :
  0 <= velocity_pressure 1 (76 # 100) (85 # 100) 1 30 /\
  velocity_pressure 1 (76 # 100) (85 # 100) 1 30
  <= velocity_pressure 1 (76 # 100) (85 # 100) 1 200.
Proof.
  destruct (wind_pressure_law 1 (76 # 100) (85 # 100) 1 30) as (_ & _ & H).
  destruct H as (H0 & Hmono); try (vm_compute; discriminate).
  split; [exact H0|]. apply Hmono; vm_compute; discriminate.
Defined.
